(** * dsc.h: containers and packed colours of the solver core

    A shallow embedding of the data-structure part of [src/dsc.h]:
    the value type [RgbaColor] with its packed 32-bit form, the growable
    sequence [List<T>] and the handle-sorted sequence [IdList<T,H>].

    Conventions of the embedding.
    - [uint8_t] and [uint32_t] values are integers of [Z]; every place
      where the C++ code converts or wraps is written out with [u8],
      [u32] and [i32].
    - The counters [n], [elemsAllocated] and the loop indices are C++
      [int]s.  Where they count cells of a store that they have walked
      or allocated step by step they are integers of [Z]; where an [int]
      is computed from an argument that the caller chooses ([n -= cnt]
      in RemoveLast) the conversion of the result to [int] is written
      out with [i32], the two's complement value that the compiled code
      yields.
    - A backing store [elem] is a list of cells; a cell that was
      allocated but never written is [None].  Reading such a cell, or a
      cell outside of the store, is the error [BadAccess].
    - [oops()] ends the process: the error [Oops].
    - [while] loops take fuel; an operation runs its loop with the bound
      [S n], which is enough whenever [0 <= n]: then [NoFuel] does not
      come out and more fuel gives the same outcome. *)

From stdpp Require Import base list sorting.
From Stdlib Require Import ZArith Lia.

Local Open Scope Z_scope.

(** ** Outcomes of a call *)

(** Modelled from the spec: oops() is defined outside of dsc.h; by
    sections 4.3 and 7 of the spec it is fatal and ends the process, so
    a call that reaches it has no result. *)
Inductive error : Set :=
| Oops        (* oops(): fatal, the process ends *)
| BadAccess   (* a read or write outside of the initialised store *)
| NoFuel.     (* the loop did not end within the fuel given *)

Inductive result (A : Type) : Type :=
| Ok (a : A)
| Err (e : error).

Arguments Ok {A} a.
Arguments Err {A} e.

Definition bind {A B : Type} (m : result A) (k : A -> result B) : result B :=
  match m with
  | Ok a => k a
  | Err e => Err e
  end.

Notation "'do' x <- m ; k" := (bind m (fun x => k))
  (at level 10, x name, m at level 100, k at level 200).

(** ** Fixed-width integers *)

Definition u8 (x : Z) : Z := x mod 256.
Definition u32 (x : Z) : Z := x mod 2 ^ 32.
(* conversion to a 32-bit two's complement int *)
Definition i32 (x : Z) : Z := (x + 2 ^ 31) mod 2 ^ 32 - 2 ^ 31.

Definition is_u8 (x : Z) : Prop := 0 <= x < 256.
Definition is_u32 (x : Z) : Prop := 0 <= x < 2 ^ 32.
Definition is_i32 (x : Z) : Prop := - 2 ^ 31 <= x < 2 ^ 31.

(** ** RgbaColor *)

Module RgbaColor.

Record t : Set := mk { red : Z; green : Z; blue : Z; alpha : Z }.

(* the four fields are uint8_t *)
Definition wf (c : t) : Prop :=
  is_u8 (red c) /\ is_u8 (green c) /\ is_u8 (blue c) /\ is_u8 (alpha c).

(* The fields are promoted to int before << and -; each shifted int is
   converted to uint32_t, and the | is done on uint32_t. *)
Definition ToPackedInt (c : t) : Z :=
  Z.lor (Z.lor (Z.lor
    (u32 (red c))
    (u32 (i32 (Z.shiftl (green c) 8))))
    (u32 (i32 (Z.shiftl (blue c) 16))))
    (u32 (i32 (Z.shiftl (255 - alpha c) 24))).

Definition From (r g b a : Z) : t :=
  {| red := u8 r; green := u8 g; blue := u8 b; alpha := u8 a |}.

(* 255 - (uint32_t) is computed on uint32_t, then converted to int *)
Definition FromPackedInt (bgra : Z) : t :=
  From
    (i32 (Z.land bgra 255))
    (i32 (Z.land (Z.shiftr bgra 8) 255))
    (i32 (Z.land (Z.shiftr bgra 16) 255))
    (i32 (u32 (255 - Z.land (Z.shiftr bgra 24) 255))).

Definition Equals (a c : t) : bool :=
  (red c =? red a) && (green c =? green a) &&
  (blue c =? blue a) && (alpha c =? alpha a).

End RgbaColor.

(** ** Backing stores

    [elem] points to [elemsAllocated] cells.  [MemRealloc], [MemFree] and
    [memmove] are declared outside of dsc.h. *)

Abbreviation store A := (list (option A)).

Section Store.
Context {A : Type}.

(* the rvalue elem[i] *)
Definition rd (b : store A) (i : Z) : result A :=
  if i <? 0 then Err BadAccess
  else match b !! Z.to_nat i with
       | Some (Some x) => Ok x
       | _ => Err BadAccess
       end.

(* elem[i] = x *)
Definition wr (b : store A) (i : Z) (x : A) : result (store A) :=
  if (0 <=? i) && (i <? Z.of_nat (length b))
  then Ok (<[Z.to_nat i := Some x]> b)
  else Err BadAccess.

(* memmove(elem+dst, elem+src, cnt*sizeof(elem[0])): the cells are
   copied as they are, the two ranges may overlap *)
Definition memmove (b : store A) (dst src cnt : Z) : result (store A) :=
  if (0 <=? cnt) && (0 <=? src) && (0 <=? dst)
     && (src + cnt <=? Z.of_nat (length b))
     && (dst + cnt <=? Z.of_nat (length b))
  then Ok (take (Z.to_nat dst) b
           ++ take (Z.to_nat cnt) (drop (Z.to_nat src) b)
           ++ drop (Z.to_nat (dst + cnt)) b)
  else Err BadAccess.

(** Modelled from the spec: MemRealloc is not defined in dsc.h.  The
    spec only says that a store grows by reallocation (section 3,
    "storage buffers grow by doubling-with-offset"); the model is the
    contract of realloc: the old cells are kept and the new ones are
    not initialised. *)
Definition MemRealloc (b : store A) (cnt : Z) : store A :=
  take (Z.to_nat cnt) b ++ replicate (Z.to_nat cnt - length b)%nat None.

End Store.

(** ** List<T> *)

Module List.
Section WithT.
(* the element class, and the read of its field tag *)
Variable T : Type.
Variable tag : T -> Z.

Record t : Type := mk { elem : store T; n : Z; elemsAllocated : Z }.

Definition AllocForOneMore (l : t) : t :=
  if elemsAllocated l <=? n l then
    let cap := (elemsAllocated l + 32) * 2 in
    {| elem := MemRealloc (elem l) cap; n := n l; elemsAllocated := cap |}
  else l.

Definition Add (x : T) (l : t) : result t :=
  let l := AllocForOneMore l in
  do b <- wr (elem l) (n l) x;
  Ok {| elem := b; n := n l + 1; elemsAllocated := elemsAllocated l |}.

(* for(src = 0; src < n; src++): [k] counts the iterations left *)
Fixpoint RemoveTagged_loop (k : nat) (b : store T) (src dest : Z)
  : result (store T * Z) :=
  match k with
  | O => Ok (b, dest)
  | S k' =>
    do x <- rd b src;
    if tag x =? 0 then
      do b' <- (if src =? dest then Ok b else wr b dest x);
      RemoveTagged_loop k' b' (src + 1) (dest + 1)
    else
      (* this item should be deleted *)
      RemoveTagged_loop k' b (src + 1) dest
  end.

Definition RemoveTagged (l : t) : result t :=
  do r <- RemoveTagged_loop (Z.to_nat (n l)) (elem l) 0 0;
  Ok {| elem := fst r; n := snd r; elemsAllocated := elemsAllocated l |}.

(* n -= cnt is computed on int *)
Definition RemoveLast (cnt : Z) (l : t) : result t :=
  if n l <? cnt then Err Oops
  else Ok {| elem := elem l; n := i32 (n l - cnt);
             elemsAllocated := elemsAllocated l |}.

End WithT.

Arguments mk {T}.
Arguments elem {T}.
Arguments n {T}.
Arguments elemsAllocated {T}.
Arguments AllocForOneMore {T}.
Arguments Add {T}.
Arguments RemoveTagged_loop {T}.
Arguments RemoveTagged {T}.
Arguments RemoveLast {T}.

End List.

(** ** IdList<T,H> *)

Module IdList.
Section WithP.
(* the fields of the element class other than h and tag *)
Variable P : Type.

(* H: a handle class, with the field uint32_t v *)
Record Handle : Set := mkH { v : Z }.

(* T: an element class, with the fields H h and int tag *)
Record Item : Type := mkT { h : Handle; tag : Z; rest : P }.

(* x.tag = tg *)
Definition set_tag (x : Item) (tg : Z) : Item :=
  {| h := h x; tag := tg; rest := rest x |}.

(* x.h.v = id *)
Definition set_h_v (x : Item) (id : Z) : Item :=
  {| h := {| v := id |}; tag := tag x; rest := rest x |}.

Record t : Type := mk { elem : store Item; n : Z; elemsAllocated : Z }.

(* the state of a container before its first use and after Clear() *)
Definition empty : t := {| elem := []; n := 0; elemsAllocated := 0 |}.

(* for(i = 0; i < n; i++): [k] counts the iterations left *)
Fixpoint MaximumId_loop (k : nat) (b : store Item) (i id : Z) : result Z :=
  match k with
  | O => Ok id
  | S k' =>
    do x <- rd b i;
    MaximumId_loop k' b (i + 1) (Z.max id (v (h x)))
  end.

Definition MaximumId (l : t) : result Z :=
  MaximumId_loop (Z.to_nat (n l)) (elem l) 0 0.

(* while(first != last) of Add; the result is the final [first] *)
Fixpoint Add_search (fuel : nat) (b : store Item) (key first last : Z)
  : result Z :=
  match fuel with
  | O => Err NoFuel
  | S fuel' =>
    if first =? last then Ok first
    else
      let mid := Z.quot (first + last) 2 in
      do x <- rd b mid;
      let hm := h x in
      if v hm >? key then Add_search fuel' b key first mid
      else if v hm <? key then Add_search fuel' b key (mid + 1) last
      else Err Oops
  end.

Definition Add (x : Item) (l : t) : result t :=
  let l :=
    if n l >=? elemsAllocated l then
      let cap := (elemsAllocated l + 32) * 2 in
      {| elem := MemRealloc (elem l) cap; n := n l; elemsAllocated := cap |}
    else l in
  do i <- Add_search (S (Z.to_nat (n l))) (elem l) (v (h x)) 0 (n l);
  do b1 <- memmove (elem l) (i + 1) i (n l - i);
  do b2 <- wr b1 i x;
  Ok {| elem := b2; n := n l + 1; elemsAllocated := elemsAllocated l |}.

(* the element as stored, and the handle that is returned *)
Definition AddAndAssignId (x : Item) (l : t) : result (Handle * t) :=
  do m <- MaximumId l;
  let x' := set_h_v x (u32 (m + 1)) in
  do l' <- Add x' l;
  Ok (h x', l').

(* while(first <= last) of FindByIdNoOops; a pointer &(elem[mid]) is
   the index mid, NULL is None *)
Fixpoint FindByIdNoOops_loop (fuel : nat) (b : store Item)
    (key first last : Z) : result (option Z) :=
  match fuel with
  | O => Err NoFuel
  | S fuel' =>
    if first <=? last then
      let mid := Z.quot (first + last) 2 in
      do x <- rd b mid;
      let hm := h x in
      if v hm >? key then FindByIdNoOops_loop fuel' b key first (mid - 1)
      else if v hm <? key then FindByIdNoOops_loop fuel' b key (mid + 1) last
      else Ok (Some mid)
    else Ok None
  end.

Definition FindByIdNoOops (hd : Handle) (l : t) : result (option Z) :=
  FindByIdNoOops_loop (S (Z.to_nat (n l))) (elem l) (v hd) 0 (n l - 1).

Definition FindById (hd : Handle) (l : t) : result Z :=
  do r <- FindByIdNoOops hd l;
  match r with
  | Some i => Ok i
  | None => Err Oops
  end.

Fixpoint ClearTags_loop (k : nat) (b : store Item) (i : Z)
  : result (store Item) :=
  match k with
  | O => Ok b
  | S k' =>
    do x <- rd b i;
    do b' <- wr b i (set_tag x 0);
    ClearTags_loop k' b' (i + 1)
  end.

Definition ClearTags (l : t) : result t :=
  do b <- ClearTags_loop (Z.to_nat (n l)) (elem l) 0;
  Ok {| elem := b; n := n l; elemsAllocated := elemsAllocated l |}.

Fixpoint Tag_loop (k : nat) (b : store Item) (key tg i : Z)
  : result (store Item) :=
  match k with
  | O => Ok b
  | S k' =>
    do x <- rd b i;
    do b' <- (if v (h x) =? key then wr b i (set_tag x tg) else Ok b);
    Tag_loop k' b' key tg (i + 1)
  end.

Definition Tag (hd : Handle) (tg : Z) (l : t) : result t :=
  do b <- Tag_loop (Z.to_nat (n l)) (elem l) (v hd) tg 0;
  Ok {| elem := b; n := n l; elemsAllocated := elemsAllocated l |}.

Fixpoint RemoveTagged_loop (k : nat) (b : store Item) (src dest : Z)
  : result (store Item * Z) :=
  match k with
  | O => Ok (b, dest)
  | S k' =>
    do x <- rd b src;
    if tag x =? 0 then
      do b' <- (if src =? dest then Ok b else wr b dest x);
      RemoveTagged_loop k' b' (src + 1) (dest + 1)
    else
      (* this item should be deleted *)
      RemoveTagged_loop k' b (src + 1) dest
  end.

Definition RemoveTagged (l : t) : result t :=
  do r <- RemoveTagged_loop (Z.to_nat (n l)) (elem l) 0 0;
  Ok {| elem := fst r; n := snd r; elemsAllocated := elemsAllocated l |}.

Definition RemoveById (hd : Handle) (l : t) : result t :=
  do l1 <- ClearTags l;
  do i <- FindById hd l1;
  do x <- rd (elem l1) i;
  do b <- wr (elem l1) i (set_tag x 1);
  RemoveTagged {| elem := b; n := n l1; elemsAllocated := elemsAllocated l1 |}.

(** Sequences of calls on one container.  The second component of a
    state lists the handle values that AddAndAssignId has assigned so
    far, oldest first. *)
Inductive op : Type :=
| OpAdd (x : Item)
| OpAddAndAssignId (x : Item)
| OpRemoveById (hd : Handle).

Definition step (o : op) (s : t * list Z) : result (t * list Z) :=
  match o with
  | OpAdd x => do l' <- Add x (fst s); Ok (l', snd s)
  | OpAddAndAssignId x =>
    do r <- AddAndAssignId x (fst s);
    Ok (snd r, snd s ++ [v (fst r)])
  | OpRemoveById hd => do l' <- RemoveById hd (fst s); Ok (l', snd s)
  end.

Fixpoint run (os : list op) (s : t * list Z) : result (t * list Z) :=
  match os with
  | [] => Ok s
  | o :: os' => do s' <- step o s; run os' s'
  end.

End WithP.

Arguments mkT {P}.
Arguments h {P}.
Arguments tag {P}.
Arguments rest {P}.
Arguments set_tag {P}.
Arguments set_h_v {P}.
Arguments mk {P}.
Arguments elem {P}.
Arguments n {P}.
Arguments elemsAllocated {P}.
Arguments empty {P}.
Arguments MaximumId_loop {P}.
Arguments MaximumId {P}.
Arguments Add_search {P}.
Arguments Add {P}.
Arguments AddAndAssignId {P}.
Arguments FindByIdNoOops_loop {P}.
Arguments FindByIdNoOops {P}.
Arguments FindById {P}.
Arguments ClearTags_loop {P}.
Arguments ClearTags {P}.
Arguments Tag_loop {P}.
Arguments Tag {P}.
Arguments RemoveTagged_loop {P}.
Arguments RemoveTagged {P}.
Arguments RemoveById {P}.
Arguments OpAdd {P}.
Arguments OpAddAndAssignId {P}.
Arguments OpRemoveById {P}.
Arguments step {P}.
Arguments run {P}.

End IdList.

(** ** What a container holds

    The predicates in which the properties are stated.  A store holds the
    elements [xs] when its first cells are the elements of [xs], in this
    order; what the cells behind them hold is of no concern. *)

Definition live {A : Type} (xs : list A) (junk : store A) : store A :=
  (Some <$> xs) ++ junk.

Module ListSpec.
Section WithT.
Context {T : Type} (tag : T -> Z).

(* [l] is well formed and holds the elements [xs], in this order *)
Definition Rep (l : List.t T) (xs : list T) : Prop :=
  List.n l = Z.of_nat (length xs) /\
  List.elemsAllocated l = Z.of_nat (length (List.elem l)) /\
  exists junk, List.elem l = live xs junk.

(* the elements that RemoveTagged keeps *)
Definition untagged (x : T) : Prop := tag x = 0.

#[global] Instance untagged_dec (x : T) : Decision (untagged x).
Proof. unfold untagged. apply _. Defined.

End WithT.
End ListSpec.

Module IdListSpec.
Section WithP.
Context {P : Type}.
Import IdList.
Implicit Types (l : IdList.t P) (x : Item P) (xs : list (Item P)).

(* x.h.v *)
Definition hv x : Z := v (h x).

(* [l] is well formed and holds the elements [xs], in this order *)
Definition Rep l xs : Prop :=
  n l = Z.of_nat (length xs) /\
  elemsAllocated l = Z.of_nat (length (elem l)) /\
  exists junk, elem l = live xs junk.

(* strictly ascending handle values *)
Definition ascending xs : Prop := StronglySorted (fun x y => hv x < hv y) xs.

(* the invariant of the container *)
Definition Inv l : Prop := exists xs, Rep l xs /\ ascending xs.

(* the largest of [id] and the handle values of [xs] *)
Definition max_id (id : Z) xs : Z := foldl (fun m x => Z.max m (hv x)) id xs.

(* what Tag(key, tg) does to one element *)
Definition retag (key tg : Z) x : Item P :=
  if hv x =? key then set_tag x tg else x.

(* everything before [i] is below [key], everything from [i] on is above *)
Definition splits_at xs (key i : Z) : Prop :=
  (forall (j : nat) x, Z.of_nat j < i -> xs !! j = Some x -> hv x < key) /\
  (forall (j : nat) x, i <= Z.of_nat j -> xs !! j = Some x -> key < hv x).

(* the container after the first statement of Add *)
Definition grown l : IdList.t P :=
  if n l >=? elemsAllocated l then
    let cap := (elemsAllocated l + 32) * 2 in
    {| elem := MemRealloc (elem l) cap; n := n l; elemsAllocated := cap |}
  else l.

End WithP.
End IdListSpec.

(** ** The other member functions of the two containers

    A pointer into the store is the index of its cell, and NULL is
    [None]. *)

Module ListOps.
Section WithT.
Context {T : Type}.

(* memmove(elem+1, elem, n*sizeof(elem[0])); n++; elem[0] = *t; *)
Definition AddToBeginning (x : T) (l : List.t T) : result (List.t T) :=
  let l := List.AllocForOneMore l in
  do b <- memmove (List.elem l) 1 0 (List.n l);
  do b' <- wr b 0 x;
  Ok (List.mk b' (List.n l + 1) (List.elemsAllocated l)).

Definition First (l : List.t T) : option Z :=
  if List.n l =? 0 then None else Some 0.

(* prev - elem is the index of the cell that prev points to *)
Definition NextAfter (l : List.t T) (prev : option Z) : option Z :=
  match prev with
  | None => None
  | Some i => if i =? List.n l - 1 then None else Some (i + 1)
  end.

(* the loop of the callers,
     for(t = l.First(); t; t = l.NextAfter(t)) { ... *t ... }
   collecting the elements that it visits *)
Fixpoint walk (fuel : nat) (l : List.t T) (p : option Z) : result (list T) :=
  match p with
  | None => Ok []
  | Some i =>
    match fuel with
    | O => Err NoFuel
    | S fuel' =>
      do x <- rd (List.elem l) i;
      do xs <- walk fuel' l (NextAfter l p);
      Ok (x :: xs)
    end
  end.

(* the calls l.Add(&x) of a caller, for the elements of [xs] in turn *)
Fixpoint Add_all (xs : list T) (l : List.t T) : result (List.t T) :=
  match xs with
  | [] => Ok l
  | x :: xs' => do l' <- List.Add x l; Add_all xs' l'
  end.

(** Modelled from the spec: SWAP is a macro defined outside of dsc.h; the
    spec has Reverse work "in place" (section 4.3), so SWAP(T, a, b)
    exchanges what the two lvalues hold, through a temporary. *)
Definition SWAP (b : store T) (i j : Z) : result (store T) :=
  do temp <- rd b i;
  do y <- rd b j;
  do b1 <- wr b i y;
  wr b1 j temp.

(* for(i = 0; i < (n/2); i++): [k] counts the iterations left *)
Fixpoint Reverse_loop (k : nat) (b : store T) (i n : Z) : result (store T) :=
  match k with
  | O => Ok b
  | S k' =>
    do b' <- SWAP b i ((n - 1) - i);
    Reverse_loop k' b' (i + 1) n
  end.

Definition Reverse (l : List.t T) : result (List.t T) :=
  do b <- Reverse_loop (Z.to_nat (Z.quot (List.n l) 2)) (List.elem l) 0 (List.n l);
  Ok (List.mk b (List.n l) (List.elemsAllocated l)).

End WithT.
End ListOps.

Module IdListOps.
Section WithP.
Context {P : Type}.
Import IdList.

Definition First (l : IdList.t P) : option Z :=
  if n l =? 0 then None else Some 0.

Definition NextAfter (l : IdList.t P) (prev : option Z) : option Z :=
  match prev with
  | None => None
  | Some i => if i =? n l - 1 then None else Some (i + 1)
  end.

(* for(t = l.First(); t; t = l.NextAfter(t)) { ... *t ... } *)
Fixpoint walk (fuel : nat) (l : IdList.t P) (p : option Z)
  : result (list (Item P)) :=
  match p with
  | None => Ok []
  | Some i =>
    match fuel with
    | O => Err NoFuel
    | S fuel' =>
      do x <- rd (elem l) i;
      do xs <- walk fuel' l (NextAfter l p);
      Ok (x :: xs)
    end
  end.

(* the calls that take an element out *)
Definition removes (o : op P) : bool :=
  match o with
  | OpRemoveById _ => true
  | _ => false
  end.

End WithP.
End IdListOps.

(** ** NameStr

    A char is its value in [Z]; [str] is the list of the 64 bytes of the
    array, and the argument [in] is the memory from the address [in] on.
    strlen and memcpy are those of the C library. *)

Module NameStr.

(* sizeof(str) *)
Definition size : Z := 64.

Fixpoint strlen (m : list Z) : result Z :=
  match m with
  | [] => Err BadAccess
  | c :: m' => if c =? 0 then Ok 0 else do k <- strlen m'; Ok (k + 1)
  end.

Definition memcpy (dst src : list Z) (cnt : Z) : result (list Z) :=
  if (0 <=? cnt) && (cnt <=? Z.of_nat (length dst))
     && (cnt <=? Z.of_nat (length src))
  then Ok (take (Z.to_nat cnt) src ++ drop (Z.to_nat cnt) dst)
  else Err BadAccess.

(* memcpy(str, in, min(strlen(in)+1, sizeof(str)));
   str[sizeof(str)-1] = '\0'; *)
Definition strcpy (inp : list Z) (str : list Z) : result (list Z) :=
  do k <- strlen inp;
  do s1 <- memcpy str inp (Z.min (k + 1) size);
  if size - 1 <? Z.of_nat (length s1)
  then Ok (<[Z.to_nat (size - 1) := 0]> s1)
  else Err BadAccess.

End NameStr.

(** ** Sample data for runs of the embedding *)

Module Samples.
Import IdList.

(* an element with no field besides h and tag *)
Definition item (id tg : Z) : Item unit := mkT (mkH id) tg tt.

(* the handles and tags of the elements of a container, with n and
   elemsAllocated *)
Definition shown (r : result (IdList.t unit * list Z))
  : option (list (Z * Z) * Z * Z) :=
  match r with
  | Ok (l, _) =>
      Some (omap (fun c => (fun x => (v (h x), tag x)) <$> c)
                 (take (Z.to_nat (n l)) (elem l)),
            n l, elemsAllocated l)
  | Err _ => None
  end.

End Samples.

(** * Properties *)

(** ** Facts on the packed colour *)

Section PackedColor.
Import RgbaColor.

Lemma land_255 (x : Z) : Z.land x 255 = x mod 256.
Proof. change 255 with (Z.ones 8). rewrite Z.land_ones by lia. reflexivity. Qed.

Lemma shiftl_mul (x k : Z) : 0 <= k -> Z.shiftl x k = x * 2 ^ k.
Proof. intros Hk. apply Z.shiftl_mul_pow2, Hk. Qed.

Lemma u32_i32 (x : Z) : u32 (i32 x) = u32 x.
Proof. unfold u32, i32. Z.div_mod_to_equations. lia. Qed.

(* a value below 2^k and a value shifted by k have no common bit *)
Lemma lor_shiftl_plus (x y k : Z) :
  0 <= k -> 0 <= x < 2 ^ k -> Z.lor x (Z.shiftl y k) = x + y * 2 ^ k.
Proof.
  intros Hk Hx.
  pose proof (Z.add_lor_land x (Z.shiftl y k)) as Hsum.
  rewrite <- (shiftl_mul y k) by lia.
  enough (Z.land x (Z.shiftl y k) = 0) by lia.
  apply Z.bits_inj'. intros i Hi.
  rewrite Z.land_spec, Z.bits_0.
  destruct (Z.lt_ge_cases i k) as [Hlt | Hge].
  - rewrite Z.shiftl_spec_low by lia. apply andb_false_r.
  - replace (Z.testbit x i) with false; [reflexivity |].
    symmetry. destruct (Z.eq_dec x 0) as [-> | Hx0]; [apply Z.bits_0 |].
    apply Z.bits_above_log2; [lia |].
    apply Z.log2_lt_pow2; [lia |].
    apply Z.lt_le_trans with (2 ^ k); [lia |].
    apply Z.pow_le_mono_r; lia.
Qed.

Lemma pack_bytes (a b c d : Z) :
  is_u8 a -> is_u8 b -> is_u8 c ->
  Z.lor (Z.lor (Z.lor a (Z.shiftl b 8)) (Z.shiftl c 16)) (Z.shiftl d 24)
  = a + b * 2 ^ 8 + c * 2 ^ 16 + d * 2 ^ 24.
Proof.
  unfold is_u8. intros Ha Hb Hc.
  rewrite (lor_shiftl_plus a b 8) by lia.
  rewrite (lor_shiftl_plus _ c 16) by lia.
  rewrite (lor_shiftl_plus _ d 24) by lia.
  reflexivity.
Qed.

(* on bytes none of the conversions of ToPackedInt changes a value *)
Lemma ToPackedInt_plain (c : t) :
  wf c ->
  ToPackedInt c =
  Z.lor (Z.lor (Z.lor (red c) (Z.shiftl (green c) 8)) (Z.shiftl (blue c) 16))
        (Z.shiftl (255 - alpha c) 24).
Proof.
  unfold wf, is_u8, ToPackedInt. intros (Hr & Hg & Hb & Ha).
  rewrite !u32_i32, !shiftl_mul by lia.
  unfold u32. rewrite !Z.mod_small by lia. reflexivity.
Qed.

Lemma ToPackedInt_sum (c : t) :
  wf c ->
  ToPackedInt c =
  red c + green c * 2 ^ 8 + blue c * 2 ^ 16 + (255 - alpha c) * 2 ^ 24.
Proof.
  intros Hc. rewrite ToPackedInt_plain by assumption.
  destruct Hc as (Hr & Hg & Hb & Ha). apply pack_bytes; assumption.
Qed.

Lemma byte_of_word (w k : Z) :
  0 <= k -> Z.land (Z.shiftr w k) 255 = (w / 2 ^ k) mod 256.
Proof. intros Hk. rewrite land_255, Z.shiftr_div_pow2 by lia. reflexivity. Qed.

Lemma FromPackedInt_fields (w : Z) :
  FromPackedInt w =
  mk (w mod 256) ((w / 2 ^ 8) mod 256) ((w / 2 ^ 16) mod 256)
     (255 - (w / 2 ^ 24) mod 256).
Proof.
  unfold FromPackedInt, From.
  rewrite !byte_of_word, land_255 by lia.
  unfold u8, i32, u32. f_equal; Z.div_mod_to_equations; lia.
Qed.

Lemma FromPackedInt_wf (w : Z) : wf (FromPackedInt w).
Proof.
  rewrite FromPackedInt_fields. unfold wf, is_u8. cbn.
  repeat split; Z.div_mod_to_equations; lia.
Qed.

End PackedColor.

(** ** Facts on backing stores *)

Section StoreFacts.
Context {A : Type}.
Implicit Types (b junk : store A) (xs ys zs : list A) (x y z : A).

Lemma live_length xs junk :
  length (live xs junk) = (length xs + length junk)%nat.
Proof. unfold live. rewrite length_app, length_fmap. reflexivity. Qed.

Lemma live_app xs ys junk : live (xs ++ ys) junk = live xs (live ys junk).
Proof. unfold live. rewrite fmap_app, <- app_assoc. reflexivity. Qed.

Lemma live_lookup xs junk (i : nat) x :
  xs !! i = Some x -> live xs junk !! i = Some (Some x).
Proof.
  intros Hi. unfold live.
  rewrite lookup_app_l by (rewrite length_fmap; eapply lookup_lt_Some, Hi).
  rewrite list_lookup_fmap, Hi. reflexivity.
Qed.

Lemma rd_error b (i : Z) (e : error) : rd b i = Err e -> e = BadAccess.
Proof.
  unfold rd. destruct (i <? 0); [congruence |].
  destruct (b !! Z.to_nat i) as [[x |] |]; congruence.
Qed.

Lemma rd_live xs junk (i : nat) x :
  xs !! i = Some x -> rd (live xs junk) (Z.of_nat i) = Ok x.
Proof.
  intros Hi. unfold rd.
  destruct (Z.ltb_spec (Z.of_nat i) 0) as [Hneg | _]; [lia |].
  rewrite Nat2Z.id, (live_lookup _ _ _ _ Hi). reflexivity.
Qed.

Lemma rd_live_Z xs junk (i : Z) :
  0 <= i < Z.of_nat (length xs) ->
  exists x, xs !! Z.to_nat i = Some x /\ rd (live xs junk) i = Ok x.
Proof.
  intros Hi.
  destruct (lookup_lt_is_Some_2 xs (Z.to_nat i)) as [x Hx]; [lia |].
  exists x. split; [exact Hx |].
  rewrite <- (Z2Nat.id i) by lia. apply rd_live, Hx.
Qed.

Lemma rd_mid ys z zs junk :
  rd (live (ys ++ z :: zs) junk) (Z.of_nat (length ys)) = Ok z.
Proof. apply rd_live. rewrite list_lookup_middle; reflexivity. Qed.

Lemma wr_mid ys z zs junk x :
  wr (live (ys ++ z :: zs) junk) (Z.of_nat (length ys)) x
  = Ok (live (ys ++ x :: zs) junk).
Proof.
  unfold wr. rewrite live_length, length_app. cbn [length].
  destruct (Z.leb_spec 0 (Z.of_nat (length ys))); [| lia].
  destruct (Z.ltb_spec (Z.of_nat (length ys))
              (Z.of_nat (length ys + S (length zs) + length junk))); [| lia].
  cbn [andb]. rewrite Nat2Z.id. f_equal.
  unfold live. rewrite !fmap_app, !fmap_cons, <- !app_assoc.
  rewrite <- (length_fmap Some ys) at 1.
  rewrite insert_app_r_alt, Nat.sub_diag by lia. reflexivity.
Qed.

(* a write into the cell that follows [ys], whatever that cell held *)
Lemma wr_at ys (d : option A) (rest : store A) x :
  wr (live ys (d :: rest)) (Z.of_nat (length ys)) x
  = Ok (live ys (Some x :: rest)).
Proof.
  unfold wr. rewrite live_length. cbn [length].
  destruct (Z.leb_spec 0 (Z.of_nat (length ys))); [| lia].
  destruct (Z.ltb_spec (Z.of_nat (length ys))
              (Z.of_nat (length ys + S (length rest)))); [| lia].
  cbn [andb]. rewrite Nat2Z.id. f_equal. unfold live.
  rewrite <- (length_fmap Some ys) at 1.
  rewrite insert_app_r_alt, Nat.sub_diag by lia. reflexivity.
Qed.

(* memmove(elem+i+1, elem+i, cnt): the cells holding [zs] move up by
   one; the cell at [i] keeps what it had *)
Lemma memmove_shift ys zs (c : option A) junk (i cnt : Z) :
  i = Z.of_nat (length ys) -> cnt = Z.of_nat (length zs) ->
  exists d,
    memmove (live (ys ++ zs) (c :: junk)) (i + 1) i cnt
    = Ok (live ys (d :: live zs junk)).
Proof.
  intros -> ->. unfold memmove.
  rewrite live_length, length_app. cbn [length].
  repeat match goal with
         | |- context [?a <=? ?b] => rewrite (proj2 (Z.leb_le a b)) by lia
         end.
  cbn [andb].
  replace (Z.to_nat (Z.of_nat (length ys) + 1))
    with (length (Some <$> ys) + 1)%nat by (rewrite length_fmap; lia).
  replace (Z.to_nat (Z.of_nat (length ys) + 1 + Z.of_nat (length zs)))
    with (length (Some <$> ys) + (length (Some <$> zs) + 1))%nat
    by (rewrite !length_fmap; lia).
  rewrite !Nat2Z.id, live_app. unfold live at 1 3 5.
  rewrite take_app_add, drop_app_add.
  rewrite drop_app_length' by (rewrite length_fmap; reflexivity).
  unfold live at 2 3.
  rewrite take_app_length' by (rewrite length_fmap; reflexivity).
  rewrite drop_app_add. cbn [drop].
  exists (match zs with [] => c | z :: _ => Some z end).
  f_equal. unfold live. rewrite <- app_assoc. f_equal.
  destruct zs; reflexivity.
Qed.

Lemma wr_length b i x b' : wr b i x = Ok b' -> length b' = length b.
Proof.
  unfold wr. destruct (_ && _); [| discriminate].
  intros [= <-]. apply length_insert.
Qed.

Lemma MemRealloc_live xs junk (cnt : Z) :
  Z.of_nat (length (live xs junk)) <= cnt ->
  MemRealloc (live xs junk) cnt
  = live xs (junk ++ replicate (Z.to_nat cnt - length (live xs junk)) None).
Proof.
  intros Hc. unfold MemRealloc.
  rewrite take_ge by lia. unfold live. rewrite <- app_assoc. reflexivity.
Qed.

Lemma MemRealloc_length b (cnt : Z) :
  Z.of_nat (length b) <= cnt -> Z.of_nat (length (MemRealloc b cnt)) = cnt.
Proof.
  intros Hc. unfold MemRealloc.
  rewrite take_ge by lia. rewrite length_app, length_replicate. lia.
Qed.

End StoreFacts.

(** ** List<T>: mark and sweep, RemoveLast *)

Module ListFacts.
Section WithT.
Context {T : Type} (tag : T -> Z).
Import ListSpec.
Implicit Types (l : List.t T) (xs ys zs : list T).
Local Abbreviation untagged := (ListSpec.untagged tag).

Lemma snoc_app xs (x : T) ys : (xs ++ [x]) ++ ys = xs ++ x :: ys.
Proof. rewrite <- app_assoc. reflexivity. Qed.

(* [kept]: survivors already in place; [mid]: cells between dest and
   src, whose content is stale; [zs]: still to be looked at *)
Lemma RemoveTagged_loop_spec zs :
  forall kept mid junk b src dest,
    b = live (kept ++ mid ++ zs) junk ->
    src = Z.of_nat (length kept + length mid) ->
    dest = Z.of_nat (length kept) ->
    exists junk',
      List.RemoveTagged_loop tag (length zs) b src dest
      = Ok (live (kept ++ filter untagged zs) junk',
            Z.of_nat (length (kept ++ filter untagged zs))) /\
      length (live (kept ++ filter untagged zs) junk') = length b.
Proof.
  induction zs as [| z zs IH]; intros kept mid junk b src dest Hb Hsrc Hdest.
  - cbn. exists (live mid junk). subst.
    rewrite !app_nil_r, !live_app. auto.
  - cbn [length List.RemoveTagged_loop].
    assert (Hrd : rd b src = Ok z).
    { subst b src. rewrite app_assoc, <- length_app. apply rd_mid. }
    rewrite Hrd. cbn [bind].
    destruct (Z.eqb_spec (tag z) 0) as [Hz | Hz].
    + rewrite (filter_cons_True untagged z zs Hz).
      destruct (Z.eqb_spec src dest) as [Heq | Hne]; cbn [bind].
      * assert (mid = []) as -> by (apply nil_length_inv; lia).
        destruct (IH (kept ++ [z]) [] junk b (src + 1) (dest + 1))
          as (junk' & Hrun & Hlen).
        { subst b. cbn. rewrite <- app_assoc. reflexivity. }
        { rewrite length_app. cbn. lia. }
        { rewrite length_app. cbn. lia. }
        exists junk'. rewrite snoc_app in Hrun, Hlen. auto.
      * destruct mid as [| m mid]; [cbn in Hsrc; lia |].
        assert (Hwr : wr b dest z
                      = Ok (live ((kept ++ [z]) ++ (mid ++ [z]) ++ zs) junk)).
        { subst b dest. cbn. rewrite wr_mid. do 2 f_equal.
          rewrite <- !app_assoc. reflexivity. }
        rewrite Hwr. cbn [bind].
        destruct (IH (kept ++ [z]) (mid ++ [z]) junk _ (src + 1) (dest + 1)
                    eq_refl) as (junk' & Hrun & Hlen).
        { rewrite !length_app. cbn in *. lia. }
        { rewrite length_app. cbn. lia. }
        exists junk'. rewrite (snoc_app kept z (filter _ _)) in Hrun, Hlen.
        split; [exact Hrun |].
        rewrite Hlen. apply (wr_length _ _ _ _ Hwr).
    + rewrite (filter_cons_False untagged z zs Hz).
      apply (IH kept (mid ++ [z]) junk b (src + 1) dest).
      * subst b. rewrite <- !app_assoc. reflexivity.
      * rewrite length_app. cbn. lia.
      * exact Hdest.
Qed.

Lemma RemoveTagged_spec l xs :
  Rep l xs ->
  exists l',
    List.RemoveTagged tag l = Ok l' /\
    Rep l' (filter untagged xs) /\
    List.elemsAllocated l' = List.elemsAllocated l.
Proof.
  intros (Hn & Hcap & junk & Hb).
  destruct (RemoveTagged_loop_spec xs [] [] junk (List.elem l) 0 0)
    as (junk' & Hrun & Hlen); [exact Hb | reflexivity | reflexivity |].
  unfold List.RemoveTagged. rewrite Hn, Nat2Z.id, Hrun. cbn.
  eexists. split; [reflexivity |].
  unfold Rep. cbn. cbn in Hlen. rewrite Hlen.
  repeat split; eauto.
Qed.

Lemma RemoveLast_spec (cnt : Z) l :
  (List.RemoveLast cnt l = Err Oops <-> List.n l < cnt) /\
  (cnt <= List.n l ->
   List.RemoveLast cnt l =
   Ok (List.mk (List.elem l) (i32 (List.n l - cnt)) (List.elemsAllocated l))).
Proof.
  unfold List.RemoveLast.
  destruct (Z.ltb_spec (List.n l) cnt) as [Hlt | Hge].
  - split; [tauto | lia].
  - split; [| reflexivity]. split; [discriminate | lia].
Qed.

End WithT.
End ListFacts.

(** ** IdList<T,H>: representation and the counting loops *)

Module IdListFacts.
Section WithP.
Context {P : Type}.
Import IdList IdListSpec.
Implicit Types (l : IdList.t P) (x y z : Item P) (xs ys zs : list (Item P)).
Implicit Types (junk b : store (Item P)) (hd : Handle) (key : Z).

Local Abbreviation untagged := (ListSpec.untagged tag).

Lemma Rep_empty : Rep (@empty P) [].
Proof. unfold Rep. cbn. repeat split. exists []. reflexivity. Qed.

Lemma hv_set_tag x tg : hv (set_tag x tg) = hv x.
Proof. reflexivity. Qed.

Lemma hv_set_h_v x id : hv (set_h_v x id) = id.
Proof. reflexivity. Qed.

(** *** MaximumId *)

Lemma MaximumId_loop_spec zs :
  forall ys junk i id,
    i = Z.of_nat (length ys) ->
    MaximumId_loop (length zs) (live (ys ++ zs) junk) i id = Ok (max_id id zs).
Proof.
  induction zs as [| z zs IH]; intros ys junk i id Hi; [reflexivity |].
  cbn [length MaximumId_loop]. subst i. rewrite rd_mid. cbn [bind].
  rewrite <- ListFacts.snoc_app. apply IH. rewrite length_app. cbn. lia.
Qed.

Lemma MaximumId_spec l xs : Rep l xs -> MaximumId l = Ok (max_id 0 xs).
Proof.
  intros (Hn & _ & junk & Hb). unfold MaximumId.
  rewrite Hn, Nat2Z.id, Hb. apply (MaximumId_loop_spec xs [] junk). reflexivity.
Qed.

Lemma max_id_ge xs : forall id, id <= max_id id xs.
Proof.
  induction xs as [| x xs IH]; intros id; cbn; [lia |].
  specialize (IH (Z.max id (hv x))). unfold max_id in IH. lia.
Qed.

Lemma max_id_upper xs : forall id x, x ∈ xs -> hv x <= max_id id xs.
Proof.
  induction xs as [| y xs IH]; intros id x Hx; [inversion Hx |].
  cbn. apply elem_of_cons in Hx as [-> | Hx].
  - pose proof (max_id_ge xs (Z.max id (hv y))). unfold max_id in *. lia.
  - apply IH, Hx.
Qed.

Lemma max_id_attained xs :
  forall id, max_id id xs = id \/ exists x, x ∈ xs /\ hv x = max_id id xs.
Proof.
  induction xs as [| y xs IH]; intros id; cbn; [left; reflexivity |].
  destruct (IH (Z.max id (hv y))) as [Heq | (x & Hx & Heq)].
  - unfold max_id in Heq. rewrite Heq.
    destruct (Z.max_spec id (hv y)) as [[_ ->] | [_ ->]]; [right | left; reflexivity].
    exists y. split; [left | reflexivity].
  - right. exists x. split; [right; exact Hx | exact Heq].
Qed.

(** *** ClearTags and Tag *)

Lemma ClearTags_loop_spec zs :
  forall ys junk i,
    i = Z.of_nat (length ys) ->
    ClearTags_loop (length zs) (live (ys ++ zs) junk) i
    = Ok (live (ys ++ ((fun x => set_tag x 0) <$> zs)) junk).
Proof.
  induction zs as [| z zs IH]; intros ys junk i Hi; [reflexivity |].
  cbn [length ClearTags_loop]. subst i. rewrite rd_mid. cbn [bind].
  rewrite wr_mid. cbn [bind].
  rewrite fmap_cons, <- (ListFacts.snoc_app ys _ zs).
  rewrite <- (ListFacts.snoc_app ys _ (_ <$> zs)). apply IH.
  rewrite length_app. cbn. lia.
Qed.

Lemma ClearTags_spec l xs :
  Rep l xs ->
  exists l',
    ClearTags l = Ok l' /\ Rep l' ((fun x => set_tag x 0) <$> xs) /\
    elemsAllocated l' = elemsAllocated l.
Proof.
  intros (Hn & Hcap & junk & Hb). unfold ClearTags.
  rewrite Hn, Nat2Z.id, Hb, (ClearTags_loop_spec xs [] junk) by reflexivity.
  cbn [bind app]. eexists. split; [reflexivity |].
  unfold Rep. cbn [elem n elemsAllocated].
  rewrite Hcap, Hb, !live_length, !length_fmap. eauto 6.
Qed.

Lemma Tag_loop_spec key tg zs :
  forall ys junk i,
    i = Z.of_nat (length ys) ->
    Tag_loop (length zs) (live (ys ++ zs) junk) key tg i
    = Ok (live (ys ++ (retag key tg <$> zs)) junk).
Proof.
  induction zs as [| z zs IH]; intros ys junk i Hi; [reflexivity |].
  cbn [length Tag_loop]. subst i. rewrite rd_mid. cbn [bind].
  rewrite fmap_cons. change (v (h z)) with (hv z).
  assert (Hz : retag key tg z = if hv z =? key then set_tag z tg else z)
    by reflexivity.
  rewrite Hz. clear Hz.
  destruct (hv z =? key); [rewrite wr_mid |]; cbn [bind];
    rewrite <- (ListFacts.snoc_app ys _ zs);
    rewrite <- (ListFacts.snoc_app ys _ (_ <$> zs));
    apply IH; rewrite length_app; cbn; lia.
Qed.

Lemma retag_absent key tg xs :
  key ∉ (hv <$> xs) -> retag key tg <$> xs = xs.
Proof.
  induction xs as [| x xs IH]; intros Hk; [reflexivity |].
  rewrite fmap_cons in Hk. apply not_elem_of_cons in Hk as [Hx Hxs].
  rewrite fmap_cons, IH by exact Hxs. unfold retag.
  destruct (Z.eqb_spec (hv x) key); [congruence | reflexivity].
Qed.

Lemma Tag_spec hd tg l xs :
  Rep l xs ->
  exists l',
    Tag hd tg l = Ok l' /\
    Rep l' (retag (v hd) tg <$> xs) /\
    n l' = n l /\ elemsAllocated l' = elemsAllocated l /\
    drop (length xs) (elem l') = drop (length xs) (elem l) /\
    (v hd ∉ (hv <$> xs) -> l' = l).
Proof.
  intros (Hn & Hcap & junk & Hb). unfold Tag.
  rewrite Hn, Nat2Z.id, Hb, (Tag_loop_spec _ _ xs [] junk) by reflexivity.
  cbn [bind app]. eexists. split; [reflexivity |].
  unfold Rep. cbn [elem n elemsAllocated].
  rewrite Hcap, Hb, !live_length, !length_fmap.
  repeat split; eauto.
  - unfold live.
    rewrite !drop_app_length'; rewrite ?length_fmap; reflexivity.
  - intros Habs. rewrite retag_absent by exact Habs.
    destruct l as [e m c]. cbn in *. subst. rewrite live_length. reflexivity.
Qed.

(** *** The two binary searches *)

Lemma ascending_lookup xs :
  ascending xs ->
  forall (i j : nat) x y,
    (i < j)%nat -> xs !! i = Some x -> xs !! j = Some y -> hv x < hv y.
Proof.
  induction 1 as [| a xs Hs IH Hall]; intros i j x y Hij Hi Hj.
  - rewrite lookup_nil in Hi. discriminate.
  - destruct j as [| j]; [lia |]. cbn in Hj.
    destruct i as [| i]; cbn in Hi.
    + injection Hi as <-. eapply (Forall_lookup_1 _ _ _ _ Hall Hj).
    + eapply (IH i j); [lia | exact Hi | exact Hj].
Qed.

Lemma handle_present xs (j : nat) x :
  xs !! j = Some x -> hv x ∈ (hv <$> xs).
Proof. intros Hj. apply list_elem_of_fmap_2, (list_elem_of_lookup_2 _ _ _ Hj). Qed.

Lemma handle_lookup xs key :
  key ∈ (hv <$> xs) -> exists (j : nat) x, xs !! j = Some x /\ hv x = key.
Proof.
  intros Hk. apply list_elem_of_fmap in Hk as (x & -> & Hx).
  apply list_elem_of_lookup in Hx as (j & Hj). eauto.
Qed.

Lemma mid_bounds (first last : Z) :
  0 <= first < last -> first <= Z.quot (first + last) 2 < last.
Proof.
  intros Hfl. rewrite Z.quot_div_nonneg by lia.
  Z.div_mod_to_equations. lia.
Qed.

(* The bound S n on the iterations of the two searches is enough on any
   store: the outcome is not NoFuel, and more fuel gives the same outcome. *)
Lemma Add_search_fuel b key :
  forall fuel first last,
    0 <= first <= last -> (Z.to_nat (last - first) < fuel)%nat ->
    Add_search fuel b key first last <> Err NoFuel /\
    forall extra,
      Add_search (fuel + extra) b key first last
      = Add_search fuel b key first last.
Proof.
  induction fuel as [| fuel IH]; intros first last Hfl Hfuel; [lia |].
  cbn [Add_search Nat.add].
  destruct (Z.eqb_spec first last) as [Heq | Hne];
    [split; [discriminate | reflexivity] |].
  pose proof (mid_bounds first last ltac:(lia)) as Hmid.
  set (mid := Z.quot (first + last) 2) in *.
  destruct (rd b mid) as [x | e] eqn:Hrd; cbn [bind].
  - destruct (v (h x) >? key); [apply IH; lia |].
    destruct (v (h x) <? key); [apply IH; lia |].
    split; [discriminate | reflexivity].
  - rewrite (rd_error _ _ _ Hrd). split; [discriminate | reflexivity].
Qed.

Lemma FindByIdNoOops_loop_fuel b key :
  forall fuel first last,
    0 <= first -> first <= last + 1 ->
    (Z.to_nat (last + 1 - first) < fuel)%nat ->
    FindByIdNoOops_loop fuel b key first last <> Err NoFuel /\
    forall extra,
      FindByIdNoOops_loop (fuel + extra) b key first last
      = FindByIdNoOops_loop fuel b key first last.
Proof.
  induction fuel as [| fuel IH]; intros first last Hf Hfl Hfuel; [lia |].
  cbn [FindByIdNoOops_loop Nat.add].
  destruct (Z.leb_spec first last) as [Hle | Hgt];
    [| split; [discriminate | reflexivity]].
  assert (Hmid : first <= Z.quot (first + last) 2 <= last).
  { rewrite Z.quot_div_nonneg by lia. Z.div_mod_to_equations. lia. }
  set (mid := Z.quot (first + last) 2) in *.
  destruct (rd b mid) as [x | e] eqn:Hrd; cbn [bind].
  - destruct (v (h x) >? key); [apply IH; lia |].
    destruct (v (h x) <? key); [apply IH; lia |].
    split; [discriminate | reflexivity].
  - rewrite (rd_error _ _ _ Hrd). split; [discriminate | reflexivity].
Qed.

Lemma Add_search_spec xs junk key :
  ascending xs ->
  forall fuel first last,
    0 <= first <= last -> last <= Z.of_nat (length xs) ->
    (Z.to_nat (last - first) < fuel)%nat ->
    (forall (j : nat) x, Z.of_nat j < first -> xs !! j = Some x -> hv x < key) ->
    (forall (j : nat) x, last <= Z.of_nat j -> xs !! j = Some x -> key < hv x) ->
    match Add_search fuel (live xs junk) key first last with
    | Ok i => first <= i <= last /\ splits_at xs key i
    | Err e => e = Oops /\ key ∈ (hv <$> xs)
    end.
Proof.
  intros Hasc. induction fuel as [| fuel IH];
    intros first last Hfl Hlen Hfuel Hlo Hhi; [lia |].
  cbn [Add_search].
  destruct (Z.eqb_spec first last) as [-> | Hne].
  { split; [lia |]. split; assumption. }
  pose proof (mid_bounds first last ltac:(lia)) as Hmid.
  set (mid := Z.quot (first + last) 2) in *.
  destruct (rd_live_Z xs junk mid ltac:(lia)) as (x & Hx & Hrd).
  rewrite Hrd. cbn [bind]. change (v (h x)) with (hv x).
  rewrite Z.gtb_ltb.
  destruct (Z.ltb_spec key (hv x)) as [Hgt | Hle].
  - specialize (IH first mid ltac:(lia) ltac:(lia) ltac:(lia) Hlo).
    destruct (Add_search fuel (live xs junk) key first mid) as [i | e].
    + destruct IH as [Hi Hsp]; [| split; [lia | exact Hsp]].
      intros j y Hj Hy.
      destruct (Z.eq_dec (Z.of_nat j) mid) as [Heq | Hneq].
      * rewrite <- Heq, Nat2Z.id in Hx. congruence.
      * pose proof (ascending_lookup xs Hasc (Z.to_nat mid) j x y
                      ltac:(lia) Hx Hy). lia.
    + apply IH. intros j y Hj Hy.
      destruct (Z.eq_dec (Z.of_nat j) mid) as [Heq | Hneq].
      * rewrite <- Heq, Nat2Z.id in Hx. congruence.
      * pose proof (ascending_lookup xs Hasc (Z.to_nat mid) j x y
                      ltac:(lia) Hx Hy). lia.
  - destruct (Z.ltb_spec (hv x) key) as [Hlt | Hge].
    + assert (Hlo' : forall (j : nat) y,
                 Z.of_nat j < mid + 1 -> xs !! j = Some y -> hv y < key).
      { intros j y Hj Hy.
        destruct (Z.eq_dec (Z.of_nat j) mid) as [Heq | Hneq].
        - rewrite <- Heq, Nat2Z.id in Hx. congruence.
        - pose proof (ascending_lookup xs Hasc j (Z.to_nat mid) y x
                        ltac:(lia) Hy Hx). lia. }
      specialize (IH (mid + 1) last ltac:(lia) ltac:(lia) ltac:(lia) Hlo' Hhi).
      destruct (Add_search fuel (live xs junk) key (mid + 1) last) as [i | e].
      * destruct IH as [Hi Hsp]. split; [lia | exact Hsp].
      * exact IH.
    + split; [reflexivity |].
      replace key with (hv x) by lia. eapply handle_present, Hx.
Qed.

Lemma FindByIdNoOops_loop_spec xs junk key :
  ascending xs ->
  forall fuel first last,
    0 <= first -> last < Z.of_nat (length xs) -> first <= last + 1 ->
    (Z.to_nat (last + 1 - first) < fuel)%nat ->
    (forall (j : nat) x, Z.of_nat j < first -> xs !! j = Some x -> hv x < key) ->
    (forall (j : nat) x, last < Z.of_nat j -> xs !! j = Some x -> key < hv x) ->
    match FindByIdNoOops_loop fuel (live xs junk) key first last with
    | Ok (Some i) =>
        0 <= i /\ exists x, xs !! Z.to_nat i = Some x /\ hv x = key
    | Ok None => key ∉ (hv <$> xs)
    | Err _ => False
    end.
Proof.
  intros Hasc. induction fuel as [| fuel IH];
    intros first last Hf Hl Hfl Hfuel Hlo Hhi; [lia |].
  cbn [FindByIdNoOops_loop].
  destruct (Z.leb_spec first last) as [Hle | Hgt].
  2:{ intros Hk. apply handle_lookup in Hk as (j & x & Hj & Hx).
      destruct (Z.lt_ge_cases (Z.of_nat j) first) as [Hjf | Hjf].
      - specialize (Hlo j x Hjf Hj). lia.
      - specialize (Hhi j x ltac:(lia) Hj). lia. }
  assert (Hmid : first <= Z.quot (first + last) 2 <= last).
  { rewrite Z.quot_div_nonneg by lia. Z.div_mod_to_equations. lia. }
  set (mid := Z.quot (first + last) 2) in *.
  destruct (rd_live_Z xs junk mid ltac:(lia)) as (x & Hx & Hrd).
  rewrite Hrd. cbn [bind]. change (v (h x)) with (hv x).
  rewrite Z.gtb_ltb.
  destruct (Z.ltb_spec key (hv x)) as [Hgt | Hle'].
  - apply IH; try lia; [exact Hlo |].
    intros j y Hj Hy.
    destruct (Z.eq_dec (Z.of_nat j) mid) as [Heq | Hneq].
    + rewrite <- Heq, Nat2Z.id in Hx. congruence.
    + pose proof (ascending_lookup xs Hasc (Z.to_nat mid) j x y
                    ltac:(lia) Hx Hy). lia.
  - destruct (Z.ltb_spec (hv x) key) as [Hlt | Hge].
    + apply IH; try lia; [| exact Hhi].
      intros j y Hj Hy.
      destruct (Z.eq_dec (Z.of_nat j) mid) as [Heq | Hneq].
      * rewrite <- Heq, Nat2Z.id in Hx. congruence.
      * pose proof (ascending_lookup xs Hasc j (Z.to_nat mid) y x
                      ltac:(lia) Hy Hx). lia.
    + split; [lia |]. exists x. split; [exact Hx | lia].
Qed.

(* a handle that no element has is not found, sorted or not *)
Lemma FindByIdNoOops_loop_absent xs junk key :
  key ∉ (hv <$> xs) ->
  forall fuel first last,
    0 <= first -> last < Z.of_nat (length xs) ->
    (Z.to_nat (last + 1 - first) < fuel)%nat ->
    FindByIdNoOops_loop fuel (live xs junk) key first last = Ok None.
Proof.
  intros Habs. induction fuel as [| fuel IH];
    intros first last Hf Hl Hfuel; [lia |].
  cbn [FindByIdNoOops_loop].
  destruct (Z.leb_spec first last) as [Hle | Hgt]; [| reflexivity].
  assert (Hmid : first <= Z.quot (first + last) 2 <= last).
  { rewrite Z.quot_div_nonneg by lia. Z.div_mod_to_equations. lia. }
  set (mid := Z.quot (first + last) 2) in *.
  destruct (rd_live_Z xs junk mid ltac:(lia)) as (x & Hx & Hrd).
  rewrite Hrd. cbn [bind]. change (v (h x)) with (hv x).
  rewrite Z.gtb_ltb.
  destruct (Z.ltb_spec key (hv x)) as [Hgt | Hle'].
  - apply IH; lia.
  - destruct (Z.ltb_spec (hv x) key) as [Hlt | Hge]; [apply IH; lia |].
    exfalso. apply Habs. replace key with (hv x) by lia.
    eapply handle_present, Hx.
Qed.

(** *** Add *)

Lemma Add_unfold x l :
  Add x l =
  (do i <- Add_search (S (Z.to_nat (n (grown l)))) (elem (grown l)) (hv x) 0
             (n (grown l));
   do b1 <- memmove (elem (grown l)) (i + 1) i (n (grown l) - i);
   do b2 <- wr b1 i x;
   Ok {| elem := b2; n := n (grown l) + 1;
         elemsAllocated := elemsAllocated (grown l) |}).
Proof. reflexivity. Qed.

(* after the first statement there is a free cell behind the elements *)
Lemma grown_spec l xs :
  Rep l xs ->
  exists c junk,
    elem (grown l) = live xs (c :: junk) /\
    n (grown l) = Z.of_nat (length xs) /\
    elemsAllocated (grown l) = Z.of_nat (length (elem (grown l))).
Proof.
  intros (Hn & Hcap & junk & Hb). unfold grown.
  rewrite Z.geb_leb.
  assert (Hlen : length (elem l) = (length xs + length junk)%nat)
    by (rewrite Hb; apply live_length).
  destruct (Z.leb_spec (elemsAllocated l) (n l)) as [Hfull | Hfree].
  - cbn [elem n elemsAllocated].
    assert (junk = []) as -> by (apply nil_length_inv; lia).
    rewrite MemRealloc_length by lia.
    rewrite Hb, MemRealloc_live by (rewrite <- Hb; lia).
    rewrite <- Hb. cbn [app].
    destruct (Z.to_nat ((elemsAllocated l + 32) * 2) - length (elem l))%nat
      as [| k] eqn:Hk; [lia |].
    cbn [replicate]. eauto.
  - destruct junk as [| c junk]; [cbn in Hlen; lia |]. eauto.
Qed.

Lemma Add_spec x l xs :
  Rep l xs -> ascending xs ->
  (hv x ∈ (hv <$> xs) -> Add x l = Err Oops) /\
  (hv x ∉ (hv <$> xs) ->
   exists l' ys zs,
     Add x l = Ok l' /\ xs = ys ++ zs /\ Rep l' (ys ++ x :: zs) /\
     Forall (fun y => hv y < hv x) ys /\ Forall (fun z => hv x < hv z) zs).
Proof.
  intros HR Hasc.
  destruct (grown_spec l xs HR) as (c & junk & Hb & Hn & Hcap).
  rewrite Add_unfold, Hn, Hb, Nat2Z.id.
  pose proof (Add_search_spec xs (c :: junk) (hv x) Hasc
                (S (length xs)) 0 (Z.of_nat (length xs))
                ltac:(lia) ltac:(lia) ltac:(lia)) as Hs.
  assert (Hlo : forall (j : nat) y,
             Z.of_nat j < 0 -> xs !! j = Some y -> hv y < hv x)
    by (intros; lia).
  assert (Hhi : forall (j : nat) y,
             Z.of_nat (length xs) <= Z.of_nat j -> xs !! j = Some y ->
             hv x < hv y)
    by (intros j y Hj Hy; apply lookup_lt_Some in Hy; lia).
  specialize (Hs Hlo Hhi). clear Hlo Hhi.
  destruct (Add_search (S (length xs)) (live xs (c :: junk)) (hv x) 0
              (Z.of_nat (length xs))) as [i | e]; cbn [bind].
  2:{ destruct Hs as [-> Hk]. split; [reflexivity | contradiction]. }
  destruct Hs as (Hi & Hbelow & Habove). split.
  { intros Hk. exfalso. apply handle_lookup in Hk as (j & y & Hj & Hy).
    destruct (Z.lt_ge_cases (Z.of_nat j) i) as [Hji | Hji].
    - specialize (Hbelow j y Hji Hj). lia.
    - specialize (Habove j y Hji Hj). lia. }
  intros _.
  set (ys := take (Z.to_nat i) xs). set (zs := drop (Z.to_nat i) xs).
  assert (Hxs : xs = ys ++ zs) by (symmetry; apply take_drop).
  assert (Hys : i = Z.of_nat (length ys))
    by (unfold ys; rewrite length_take_le; lia).
  assert (Hzs : Z.of_nat (length xs) - i = Z.of_nat (length zs))
    by (unfold zs; rewrite length_drop; lia).
  destruct (memmove_shift ys zs c junk i (Z.of_nat (length xs) - i) Hys Hzs)
    as (d & Hmv).
  rewrite <- Hxs in Hmv. rewrite Hmv. cbn [bind].
  pose proof (wr_at ys d (live zs junk) x) as Hwr.
  rewrite <- Hys in Hwr. rewrite Hwr. cbn [bind].
  eexists _, ys, zs. split; [reflexivity |]. split; [exact Hxs |].
  split; [| split].
  - unfold Rep. cbn [elem n elemsAllocated].
    rewrite Hcap, Hb, !live_length, length_app. cbn [length].
    rewrite live_length.
    assert (length xs = length ys + length zs)%nat
      by (rewrite <- length_app, <- Hxs; reflexivity).
    repeat split; [lia | lia |].
    exists junk. rewrite (live_app ys (x :: zs)). reflexivity.
  - apply Forall_lookup_2. intros j y Hy. unfold ys in Hy.
    pose proof (lookup_lt_Some _ _ _ Hy) as Hj. rewrite length_take in Hj.
    rewrite lookup_take_lt in Hy by lia.
    apply (Hbelow j y); [lia | exact Hy].
  - apply Forall_lookup_2. intros j y Hy. unfold zs in Hy.
    rewrite lookup_drop in Hy.
    apply (Habove (Z.to_nat i + j)%nat y); [lia | exact Hy].
Qed.

Lemma ascending_insert ys zs x :
  ascending (ys ++ zs) ->
  Forall (fun y => hv y < hv x) ys -> Forall (fun z => hv x < hv z) zs ->
  ascending (ys ++ x :: zs).
Proof.
  unfold ascending. rewrite !StronglySorted_app, StronglySorted_cons.
  intros (Hyz & Hy & Hz) Hlt Hgt.
  rewrite Forall_forall in Hlt, Hgt.
  repeat split; try assumption.
  - intros y z Hin Hz'. apply elem_of_cons in Hz' as [-> | Hz'];
      [apply Hlt, Hin | apply Hyz; assumption].
  - apply Forall_forall. exact Hgt.
Qed.

(** *** Lookup by handle *)

Lemma ascending_unique xs (i j : nat) x y :
  ascending xs -> xs !! i = Some x -> xs !! j = Some y -> hv x = hv y ->
  i = j.
Proof.
  intros Hasc Hi Hj Heq.
  destruct (Nat.lt_total i j) as [Hlt | [-> | Hlt]]; [| reflexivity |].
  - pose proof (ascending_lookup xs Hasc i j x y Hlt Hi Hj). lia.
  - pose proof (ascending_lookup xs Hasc j i y x Hlt Hj Hi). lia.
Qed.

Lemma FindByIdNoOops_spec hd l xs :
  Rep l xs -> ascending xs ->
  match FindByIdNoOops hd l with
  | Ok (Some i) => 0 <= i /\ exists x, xs !! Z.to_nat i = Some x /\ hv x = v hd
  | Ok None => v hd ∉ (hv <$> xs)
  | Err _ => False
  end.
Proof.
  intros (Hn & _ & junk & Hb) Hasc. unfold FindByIdNoOops.
  rewrite Hn, Hb, Nat2Z.id.
  apply FindByIdNoOops_loop_spec; try assumption; try lia.
  intros j y Hj Hy. apply lookup_lt_Some in Hy. lia.
Qed.

Lemma FindByIdNoOops_found hd l xs (j : nat) x :
  Rep l xs -> ascending xs -> xs !! j = Some x -> hv x = v hd ->
  FindByIdNoOops hd l = Ok (Some (Z.of_nat j)).
Proof.
  intros HR Hasc Hj Hx.
  pose proof (FindByIdNoOops_spec hd l xs HR Hasc) as Hs.
  destruct (FindByIdNoOops hd l) as [[i |] | e]; [| | contradiction].
  - destruct Hs as (Hi & y & Hy & Hyk).
    rewrite (ascending_unique xs j (Z.to_nat i) x y Hasc Hj Hy) by lia.
    rewrite Z2Nat.id by lia. reflexivity.
  - exfalso. apply Hs. rewrite <- Hx. eapply handle_present, Hj.
Qed.

Lemma FindByIdNoOops_absent hd l xs :
  Rep l xs -> v hd ∉ (hv <$> xs) -> FindByIdNoOops hd l = Ok None.
Proof.
  intros (Hn & _ & junk & Hb) Habs. unfold FindByIdNoOops.
  rewrite Hn, Hb, Nat2Z.id.
  apply FindByIdNoOops_loop_absent; [assumption | lia | lia | lia].
Qed.

(** *** RemoveTagged and RemoveById *)

Lemma RemoveTagged_loop_eq k :
  forall b src dest,
    RemoveTagged_loop k b src dest = List.RemoveTagged_loop tag k b src dest.
Proof.
  induction k as [| k IH]; intros b src dest; [reflexivity |].
  cbn [RemoveTagged_loop List.RemoveTagged_loop].
  destruct (rd b src) as [x | e]; [cbn [bind] | reflexivity].
  destruct (tag x =? 0); [| apply IH].
  destruct (if src =? dest then Ok b else wr b dest x) as [b' | e];
    [cbn [bind]; apply IH | reflexivity].
Qed.

Lemma IdList_RemoveTagged_spec l xs :
  Rep l xs ->
  exists l',
    RemoveTagged l = Ok l' /\
    Rep l' (filter untagged xs) /\
    elemsAllocated l' = elemsAllocated l.
Proof.
  intros (Hn & Hcap & junk & Hb).
  destruct (ListFacts.RemoveTagged_loop_spec tag xs [] [] junk (elem l) 0 0)
    as (junk' & Hrun & Hlen); [exact Hb | reflexivity | reflexivity |].
  unfold RemoveTagged. rewrite RemoveTagged_loop_eq, Hn, Nat2Z.id, Hrun.
  cbn [bind fst snd app]. cbn [app] in Hlen.
  eexists. split; [reflexivity |].
  unfold Rep. cbn [elem n elemsAllocated]. rewrite Hlen.
  repeat split; eauto.
Qed.

Lemma filter_all {A : Type} (Q : A -> Prop) `{!forall a, Decision (Q a)}
    (ws : list A) :
  Forall Q ws -> filter Q ws = ws.
Proof.
  induction 1 as [| w ws Hw _ IH]; [reflexivity |].
  rewrite filter_cons_True, IH by exact Hw. reflexivity.
Qed.

Lemma ascending_fmap (f : Item P -> Item P) xs :
  (forall x, hv (f x) = hv x) -> ascending xs -> ascending (f <$> xs).
Proof.
  intros Hf. unfold ascending. induction 1 as [| a xs Hs IH Hall].
  - constructor.
  - rewrite fmap_cons. constructor; [exact IH |].
    apply Forall_fmap. eapply Forall_impl; [exact Hall |].
    intros y Hy. cbn. rewrite !Hf. exact Hy.
Qed.

Lemma ascending_remove ys x zs : ascending (ys ++ x :: zs) -> ascending (ys ++ zs).
Proof.
  unfold ascending. rewrite !StronglySorted_app, StronglySorted_cons.
  intros (Hyz & Hy & _ & Hz). repeat split; try assumption.
  intros y z Hin Hz'. apply Hyz; [exact Hin | right; exact Hz'].
Qed.

Lemma ascending_NoDup xs : ascending xs -> NoDup (hv <$> xs).
Proof.
  induction 1 as [| a xs Hs IH Hall]; [constructor |].
  rewrite fmap_cons. constructor; [| exact IH].
  intros Hin. apply list_elem_of_fmap in Hin as (y & Heq & Hy).
  rewrite Forall_forall in Hall. specialize (Hall y Hy). lia.
Qed.

(* a handle that no element has: the lookup of RemoveById is fatal *)
Lemma RemoveById_absent hd l xs :
  Rep l xs -> v hd ∉ (hv <$> xs) -> RemoveById hd l = Err Oops.
Proof.
  intros HR Habs.
  destruct (ClearTags_spec l xs HR) as (l1 & Hclr & HR1 & _).
  unfold RemoveById. rewrite Hclr. cbn [bind]. unfold FindById.
  rewrite (FindByIdNoOops_absent hd l1 _ HR1); [reflexivity |].
  rewrite <- list_fmap_compose. exact Habs.
Qed.

Lemma RemoveById_spec hd l xs :
  Rep l xs -> ascending xs ->
  (v hd ∉ (hv <$> xs) -> RemoveById hd l = Err Oops) /\
  (forall ys x zs,
      xs = ys ++ x :: zs -> hv x = v hd ->
      exists l',
        RemoveById hd l = Ok l' /\
        Rep l' ((fun y => set_tag y 0) <$> (ys ++ zs)) /\
        elemsAllocated l' = elemsAllocated l).
Proof.
  intros HR Hasc.
  destruct (ClearTags_spec l xs HR) as (l1 & Hclr & HR1 & Hcap1).
  set (clr := fun y : Item P => set_tag y 0) in *.
  assert (Hasc1 : ascending (clr <$> xs))
    by (apply ascending_fmap; [reflexivity | exact Hasc]).
  assert (Hhv : hv <$> (clr <$> xs) = hv <$> xs).
  { rewrite <- list_fmap_compose. reflexivity. }
  unfold RemoveById. rewrite Hclr. cbn [bind]. unfold FindById. split.
  - intros Habs. rewrite <- Hhv in Habs.
    rewrite (FindByIdNoOops_absent hd l1 _ HR1 Habs). reflexivity.
  - intros ys x zs Hxs Hx.
    assert (Hj : (clr <$> xs) !! length (clr <$> ys) = Some (clr x)).
    { rewrite Hxs, fmap_app, fmap_cons. apply list_lookup_middle. reflexivity. }
    rewrite (FindByIdNoOops_found hd l1 _ _ _ HR1 Hasc1 Hj Hx). cbn [bind].
    destruct HR1 as (Hn1 & Hc1 & junk & Hb1).
    rewrite Hb1, (rd_live _ _ _ _ Hj). cbn [bind].
    rewrite Hxs, fmap_app, fmap_cons, wr_mid. cbn [bind].
    set (l2 := {| elem := live ((clr <$> ys) ++ set_tag (clr x) 1 :: (clr <$> zs)) junk;
                  n := n l1; elemsAllocated := elemsAllocated l1 |}).
    assert (HR2 : Rep l2 ((clr <$> ys) ++ set_tag (clr x) 1 :: (clr <$> zs))).
    { unfold Rep, l2. cbn [elem n elemsAllocated].
      rewrite Hn1, Hc1, Hb1, Hxs, !live_length, !length_fmap, !length_app.
      cbn [length]. rewrite !length_fmap. eauto. }
    destruct (IdList_RemoveTagged_spec l2 _ HR2) as (l' & Hrm & HR' & Hcap').
    exists l'. split; [exact Hrm |]. split; [| cbn in Hcap'; congruence].
    rewrite filter_app, filter_cons_False in HR' by (cbv; discriminate).
    rewrite !filter_all in HR'
      by (apply Forall_fmap, Forall_forall; intros; reflexivity).
    rewrite fmap_app. exact HR'.
Qed.

(** *** The invariant, and sequences of calls *)

Lemma Inv_empty : Inv (@empty P).
Proof. exists []. split; [apply Rep_empty | constructor]. Qed.

Lemma Add_inv x l :
  Inv l ->
  match Add x l with
  | Ok l' => Inv l'
  | Err e => e = Oops
  end.
Proof.
  intros (xs & HR & Hasc).
  destruct (Add_spec x l xs HR Hasc) as [Hdup Hnew].
  destruct (decide (hv x ∈ (hv <$> xs))) as [Hin | Hout].
  - rewrite (Hdup Hin). reflexivity.
  - destruct (Hnew Hout) as (l' & ys & zs & -> & Hxs & HR' & Hlt & Hgt).
    exists (ys ++ x :: zs). split; [exact HR' |].
    apply ascending_insert; [rewrite <- Hxs; exact Hasc | exact Hlt | exact Hgt].
Qed.

Lemma AddAndAssignId_unfold x l xs :
  Rep l xs ->
  AddAndAssignId x l =
  (do l' <- Add (set_h_v x (u32 (max_id 0 xs + 1))) l;
   Ok ({| v := u32 (max_id 0 xs + 1) |}, l')).
Proof.
  intros HR. unfold AddAndAssignId.
  rewrite (MaximumId_spec l xs HR). reflexivity.
Qed.

Lemma AddAndAssignId_inv x l :
  Inv l ->
  match AddAndAssignId x l with
  | Ok r => Inv (snd r)
  | Err e => e = Oops
  end.
Proof.
  intros HI. pose proof HI as (xs & HR & _).
  rewrite (AddAndAssignId_unfold x l xs HR).
  pose proof (Add_inv (set_h_v x (u32 (max_id 0 xs + 1))) l HI) as HA.
  destruct (Add _ l) as [l' | e]; exact HA.
Qed.

Lemma RemoveById_inv hd l :
  Inv l ->
  match RemoveById hd l with
  | Ok l' => Inv l'
  | Err e => e = Oops
  end.
Proof.
  intros (xs & HR & Hasc).
  destruct (decide (v hd ∈ (hv <$> xs))) as [Hin | Hout].
  - apply list_elem_of_fmap in Hin as (x & Hx & Hin).
    apply list_elem_of_split in Hin as (ys & zs & Hxs).
    destruct (RemoveById_spec hd l xs HR Hasc) as [_ Hrm].
    destruct (Hrm ys x zs Hxs (eq_sym Hx)) as (l' & -> & HR' & _).
    eexists. split; [exact HR' |].
    apply ascending_fmap; [reflexivity |].
    apply (ascending_remove ys x zs). rewrite <- Hxs. exact Hasc.
  - rewrite (RemoveById_absent hd l xs HR Hout). reflexivity.
Qed.

Lemma step_inv o (s : IdList.t P * list Z) :
  Inv (fst s) ->
  match step o s with
  | Ok s' => Inv (fst s')
  | Err e => e = Oops
  end.
Proof.
  intros HI. destruct o as [x | x | hd]; cbn [step].
  - pose proof (Add_inv x (fst s) HI) as H.
    destruct (Add x (fst s)); exact H.
  - pose proof (AddAndAssignId_inv x (fst s) HI) as H.
    destruct (AddAndAssignId x (fst s)); exact H.
  - pose proof (RemoveById_inv hd (fst s) HI) as H.
    destruct (RemoveById hd (fst s)); exact H.
Qed.

Lemma run_inv os :
  forall s : IdList.t P * list Z,
    Inv (fst s) ->
    match run os s with
    | Ok s' => Inv (fst s')
    | Err e => e = Oops
    end.
Proof.
  induction os as [| o os IH]; intros s HI; [exact HI |].
  cbn [run]. pose proof (step_inv o s HI) as Hstep.
  destruct (step o s) as [s' | e]; cbn [bind]; [apply IH, Hstep | exact Hstep].
Qed.

End WithP.
End IdListFacts.

(** ** Runs of the embedding, as traced by hand on the source *)

Module Runs.
Import IdList Samples.

(* the first Add allocates (0 + 32) * 2 cells; the elements end sorted *)
Example three_adds :
  shown (run [OpAdd (item 5 0); OpAdd (item 3 7); OpAdd (item 9 0)]
             (empty, []))
  = Some ([(3, 7); (5, 0); (9, 0)], 3, 64).
Proof. reflexivity. Qed.

(* RemoveById clears every tag before it marks its element *)
Example remove_middle :
  shown (run [OpAdd (item 5 0); OpAdd (item 3 7); OpAdd (item 9 0);
              OpRemoveById (mkH 5)] (empty, []))
  = Some ([(3, 0); (9, 0)], 2, 64).
Proof. reflexivity. Qed.

Example remove_unknown :
  run [OpAdd (item 5 0); OpRemoveById (mkH 4)] (empty, []) = Err Oops.
Proof. reflexivity. Qed.

Example add_twice :
  run [OpAdd (item 5 0); OpAdd (item 5 1)] (empty, []) = Err Oops.
Proof. reflexivity. Qed.

(* the 65th Add grows the store from 64 to (64 + 32) * 2 cells *)
Example growth :
  shown (run (OpAddAndAssignId (item 0 0) :: replicate 64 (OpAddAndAssignId (item 0 0)))
             (empty, []))
  = Some ((fun k => (Z.of_nat k, 0)) <$> seq 1 65, 65, 192).
Proof. vm_compute. reflexivity. Qed.

(* opaque white packs to 0x00ffffff: the alpha byte is inverted *)
Example white : RgbaColor.ToPackedInt (RgbaColor.From 255 255 255 255) = 16777215.
Proof. reflexivity. Qed.

Example transparent_black :
  RgbaColor.ToPackedInt (RgbaColor.From 0 0 0 0) = 4278190080.
Proof. reflexivity. Qed.

End Runs.

(** * The properties of the specification *)

(** ** PackedColor *)

(** C1: for every colour [c] whose four fields are bytes,
    [FromPackedInt (ToPackedInt c)] is [c], field by field. *)
Theorem FromPackedInt_ToPackedInt (c : RgbaColor.t) :
  RgbaColor.wf c ->
  RgbaColor.FromPackedInt (RgbaColor.ToPackedInt c) = c.
Proof.
  intros Hc. rewrite FromPackedInt_fields, ToPackedInt_sum by exact Hc.
  destruct c as [r g b a]. destruct Hc as (Hr & Hg & Hb & Ha).
  unfold is_u8 in *. cbn in *.
  f_equal; Z.div_mod_to_equations; lia.
Qed.

Lemma FromPackedInt_ToPackedInt_witness :
  RgbaColor.wf (RgbaColor.mk 18 52 86 120) /\
  RgbaColor.FromPackedInt (RgbaColor.ToPackedInt (RgbaColor.mk 18 52 86 120))
  = RgbaColor.mk 18 52 86 120.
Proof.
  assert (Hc : RgbaColor.wf (RgbaColor.mk 18 52 86 120))
    by (unfold RgbaColor.wf, is_u8; cbn; lia).
  split; [exact Hc | apply (FromPackedInt_ToPackedInt _ Hc)].
Defined.

(** C2: for every colour [c] whose fields are bytes, [ToPackedInt c] is the
    32-bit word red | green << 8 | blue << 16 | (255 - alpha) << 24: red
    is its low byte, then green, then blue, and the inverted alpha is its
    high byte. *)
Theorem ToPackedInt_layout (c : RgbaColor.t) :
  RgbaColor.wf c ->
  let w := RgbaColor.ToPackedInt c in
  w = Z.lor (Z.lor (Z.lor (RgbaColor.red c)
                          (Z.shiftl (RgbaColor.green c) 8))
                   (Z.shiftl (RgbaColor.blue c) 16))
            (Z.shiftl (255 - RgbaColor.alpha c) 24) /\
  is_u32 w /\
  Z.land w 255 = RgbaColor.red c /\
  Z.land (Z.shiftr w 8) 255 = RgbaColor.green c /\
  Z.land (Z.shiftr w 16) 255 = RgbaColor.blue c /\
  Z.land (Z.shiftr w 24) 255 = 255 - RgbaColor.alpha c.
Proof.
  intros Hc w. split; [apply ToPackedInt_plain, Hc |].
  unfold w. rewrite !byte_of_word, land_255, ToPackedInt_sum by (exact Hc || lia).
  destruct c as [r g b a]. destruct Hc as (Hr & Hg & Hb & Ha).
  unfold is_u8, is_u32 in *. cbn in *.
  repeat split; Z.div_mod_to_equations; lia.
Qed.

Lemma ToPackedInt_layout_witness :
  RgbaColor.wf (RgbaColor.mk 1 2 3 4) /\
  RgbaColor.ToPackedInt (RgbaColor.mk 1 2 3 4) = 4211278337 /\
  Z.land (Z.shiftr (RgbaColor.ToPackedInt (RgbaColor.mk 1 2 3 4)) 24) 255 = 251.
Proof.
  assert (Hc : RgbaColor.wf (RgbaColor.mk 1 2 3 4))
    by (unfold RgbaColor.wf, is_u8; cbn; lia).
  pose proof (ToPackedInt_layout _ Hc) as (Hw & _ & _ & _ & _ & Ha).
  split; [exact Hc |]. split; [rewrite Hw; reflexivity | exact Ha].
Defined.

(** C9: for every 32-bit word [w], [ToPackedInt (FromPackedInt w)] is [w]. *)
Theorem ToPackedInt_FromPackedInt (w : Z) :
  is_u32 w ->
  RgbaColor.ToPackedInt (RgbaColor.FromPackedInt w) = w.
Proof.
  intros Hw. rewrite ToPackedInt_sum by apply FromPackedInt_wf.
  rewrite FromPackedInt_fields. unfold is_u32 in Hw. cbn.
  Z.div_mod_to_equations. lia.
Qed.

Lemma ToPackedInt_FromPackedInt_witness :
  is_u32 3735928559 /\
  RgbaColor.ToPackedInt (RgbaColor.FromPackedInt 3735928559) = 3735928559.
Proof.
  assert (Hw : is_u32 3735928559) by (unfold is_u32; lia).
  split; [exact Hw | apply (ToPackedInt_FromPackedInt _ Hw)].
Defined.

(** ** List<T> *)

Lemma Rep_take {T : Type} (l : List.t T) (xs : list T) (m : Z) :
  ListSpec.Rep l xs -> 0 <= m <= List.n l ->
  ListSpec.Rep (List.mk (List.elem l) m (List.elemsAllocated l))
                (take (Z.to_nat m) xs).
Proof.
  intros (Hn & Hcap & junk & Hb) Hm. unfold ListSpec.Rep. cbn.
  rewrite length_take_le by lia. repeat split; [lia | exact Hcap |].
  exists (live (drop (Z.to_nat m) xs) junk).
  rewrite <- live_app, take_drop. exact Hb.
Qed.

Lemma i32_small (z : Z) : is_i32 z -> i32 z = z.
Proof. unfold is_i32, i32. intros Hz. Z.div_mod_to_equations. lia. Qed.

(** C8 (as amended): for every list with counter [n] and every [cnt],
    [RemoveLast cnt] is fatal exactly when [cnt] exceeds [n]; when
    [cnt <= n] it returns, no cell of the store changes and the capacity
    is what it was; and when the difference [n - cnt] is an int, the new
    length is [n - cnt].  That is so whenever [0 <= cnt <= n], and then
    the first [n - cnt] elements are the ones that were there.  Nothing
    is said of the new length when [n - cnt] is no int. *)
Theorem RemoveLast_fatal_iff {T : Type} (l : List.t T) (cnt : Z) :
  (List.RemoveLast cnt l = Err Oops <-> List.n l < cnt) /\
  (cnt <= List.n l ->
   exists l',
     List.RemoveLast cnt l = Ok l' /\
     List.elem l' = List.elem l /\
     List.elemsAllocated l' = List.elemsAllocated l /\
     (is_i32 (List.n l - cnt) -> List.n l' = List.n l - cnt) /\
     forall xs, 0 <= cnt -> is_i32 (List.n l) -> ListSpec.Rep l xs ->
                List.n l' = List.n l - cnt /\
                ListSpec.Rep l' (take (Z.to_nat (List.n l - cnt)) xs)).
Proof.
  destruct (ListFacts.RemoveLast_spec cnt l) as [Hiff Hok].
  split; [exact Hiff |]. intros Hle.
  eexists. split; [apply Hok, Hle |]. cbn [List.elem List.n List.elemsAllocated].
  do 2 (split; [reflexivity |]).
  split; [apply i32_small |].
  intros xs Hcnt Hn HR.
  assert (Hd : is_i32 (List.n l - cnt)) by (unfold is_i32 in *; lia).
  rewrite (i32_small _ Hd). split; [reflexivity |].
  apply Rep_take; [exact HR | lia].
Qed.

Lemma RemoveLast_fatal_iff_witness :
  let l := List.mk [Some 7; Some 8; Some 9; None] 3 4 in
  1 <= List.n l /\ is_i32 (List.n l - 1) /\
  (exists l', List.RemoveLast 1 l = Ok l' /\
              List.elem l' = List.elem l /\ List.elemsAllocated l' = 4 /\
              List.n l' = 3 - 1) /\
  List.RemoveLast 4 l = Err Oops.
Proof.
  intros l.
  destruct (RemoveLast_fatal_iff l 1) as [_ Hok].
  destruct (RemoveLast_fatal_iff l 4) as [[_ Hfatal] _].
  assert (Hle : 1 <= List.n l) by (cbn; lia).
  assert (Hd : is_i32 (List.n l - 1)) by (unfold is_i32; cbn; lia).
  destruct (Hok Hle) as (l' & Hrun & Hel & Hcap & Hn & _).
  split; [exact Hle |]. split; [exact Hd |].
  split; [exists l'; specialize (Hn Hd); auto |].
  apply Hfatal. cbn. lia.
Defined.

(** C8 (as stated) fails where [n - cnt] is no int.  On a list of three
    elements RemoveLast(INT_MIN) is not fatal, since INT_MIN <= 3, and
    leaves n = -2147483645, which is not 3 - INT_MIN = 2147483651. *)
Lemma RemoveLast_INT_MIN :
  let l := List.mk [Some 7; Some 8; Some 9] 3 3 in
  let cnt := -2147483648 in
  is_i32 (List.n l) /\ is_i32 cnt /\ cnt <= List.n l /\
  List.RemoveLast cnt l = Ok (List.mk [Some 7; Some 8; Some 9] (-2147483645) 3) /\
  -2147483645 <> List.n l - cnt /\
  ~ (forall (l : List.t Z) (cnt : Z),
        is_i32 (List.n l) -> is_i32 cnt -> cnt <= List.n l ->
        exists l', List.RemoveLast cnt l = Ok l' /\
                   List.n l' = List.n l - cnt).
Proof.
  intros l cnt.
  assert (Hn : is_i32 (List.n l)) by (unfold is_i32; cbn; lia).
  assert (Hc : is_i32 cnt) by (unfold is_i32, cnt; lia).
  assert (Hle : cnt <= List.n l) by (unfold cnt; cbn; lia).
  split; [exact Hn |]. split; [exact Hc |]. split; [exact Hle |].
  split; [reflexivity |]. split; [unfold cnt; cbn; lia |].
  intros Hclaim. destruct (Hclaim l cnt Hn Hc Hle) as (l' & Hrun & Hn').
  vm_compute in Hrun. injection Hrun as <-. vm_compute in Hn'. discriminate Hn'.
Qed.

(** C7: for every well-formed List and every well-formed IdList,
    RemoveTagged returns; the container then holds exactly the elements
    whose tag is zero, in the order they had; its length is the number of
    those elements; elemsAllocated is what it was. *)
Theorem RemoveTagged_sweeps
    {T : Type} (tag : T -> Z) (l : List.t T) (xs : list T)
    {P : Type} (il : IdList.t P) (ixs : list (IdList.Item P)) :
  ListSpec.Rep l xs -> IdListSpec.Rep il ixs ->
  (exists l',
      List.RemoveTagged tag l = Ok l' /\
      ListSpec.Rep l' (filter (ListSpec.untagged tag) xs) /\
      List.n l' = Z.of_nat (length (filter (ListSpec.untagged tag) xs)) /\
      List.elemsAllocated l' = List.elemsAllocated l) /\
  (exists il',
      IdList.RemoveTagged il = Ok il' /\
      IdListSpec.Rep il' (filter (ListSpec.untagged IdList.tag) ixs) /\
      IdList.n il' = Z.of_nat (length (filter (ListSpec.untagged IdList.tag) ixs)) /\
      IdList.elemsAllocated il' = IdList.elemsAllocated il).
Proof.
  intros HR HiR. split.
  - destruct (ListFacts.RemoveTagged_spec tag l xs HR) as (l' & Hrun & HR' & Hcap).
    exists l'. repeat split; try assumption; apply HR'.
  - destruct (IdListFacts.IdList_RemoveTagged_spec il ixs HiR) as (l' & Hrun & HR' & Hcap).
    exists l'. repeat split; try assumption; apply HR'.
Qed.

Lemma RemoveTagged_sweeps_witness :
  let xs := [(1, 0); (2, 5); (3, 0); (4, 0)] in
  let l := List.mk (live xs [None]) 4 5 in
  let ixs := [IdList.mkT (IdList.mkH 3) 1 tt; IdList.mkT (IdList.mkH 5) 0 tt;
              IdList.mkT (IdList.mkH 9) 2 tt] in
  let il := IdList.mk (live ixs []) 3 3 in
  ListSpec.Rep l xs /\ IdListSpec.Rep il ixs /\
  (exists l', List.RemoveTagged snd l = Ok l' /\
              ListSpec.Rep l' [(1, 0); (3, 0); (4, 0)] /\
              List.n l' = 3 /\ List.elemsAllocated l' = 5) /\
  (exists il', IdList.RemoveTagged il = Ok il' /\
               IdListSpec.Rep il' [IdList.mkT (IdList.mkH 5) 0 tt] /\
               IdList.n il' = 1 /\ IdList.elemsAllocated il' = 3).
Proof.
  intros xs l ixs il.
  assert (HR : ListSpec.Rep l xs).
  { unfold ListSpec.Rep. cbn. repeat split. exists [None]. reflexivity. }
  assert (HiR : IdListSpec.Rep il ixs).
  { unfold IdListSpec.Rep. cbn. repeat split. exists []. reflexivity. }
  split; [exact HR |]. split; [exact HiR |].
  exact (RemoveTagged_sweeps snd l xs il ixs HR HiR).
Defined.

(** ** IdList<T,H> *)

(** C10: for every well-formed IdList, [Tag hd tg] returns.  In the list
    that comes out every element whose handle is [hd] has the tag [tg]
    and the handle and other fields it had; every other element, every
    cell behind the elements, [n] and [elemsAllocated] are what they
    were.  When no element has the handle [hd], the list that comes out
    is the list that went in, whereas RemoveById of that handle is
    fatal. *)
Theorem Tag_unknown_handle_is_noop {P : Type}
    (hd : IdList.Handle) (tg : Z) (l : IdList.t P) (xs : list (IdList.Item P)) :
  IdListSpec.Rep l xs ->
  (exists l' xs',
      IdList.Tag hd tg l = Ok l' /\
      IdListSpec.Rep l' xs' /\
      xs' = (fun x => if IdList.v (IdList.h x) =? IdList.v hd
                      then IdList.mkT (IdList.h x) tg (IdList.rest x)
                      else x) <$> xs /\
      length xs' = length xs /\
      (forall (i : nat) x x',
          xs !! i = Some x -> xs' !! i = Some x' ->
          IdList.h x' = IdList.h x /\ IdList.rest x' = IdList.rest x /\
          IdList.tag x'
          = (if IdList.v (IdList.h x) =? IdList.v hd then tg else IdList.tag x)) /\
      IdList.n l' = IdList.n l /\
      IdList.elemsAllocated l' = IdList.elemsAllocated l /\
      drop (length xs) (IdList.elem l') = drop (length xs) (IdList.elem l)) /\
  (IdList.v hd ∉ (IdListSpec.hv <$> xs) ->
   IdList.Tag hd tg l = Ok l /\ IdList.RemoveById hd l = Err Oops).
Proof.
  intros HR.
  destruct (IdListFacts.Tag_spec hd tg l xs HR)
    as (l' & Hrun & HR' & Hn & Hcap & Hjunk & Hsame).
  split.
  - exists l', (IdListSpec.retag (IdList.v hd) tg <$> xs).
    split; [exact Hrun |]. split; [exact HR' |]. split; [reflexivity |].
    split; [apply length_fmap |].
    split; [| split; [exact Hn | split; [exact Hcap | exact Hjunk]]].
    intros i x x' Hx Hx'.
    rewrite list_lookup_fmap, Hx in Hx'. injection Hx' as <-.
    unfold IdListSpec.retag, IdListSpec.hv.
    destruct (IdList.v (IdList.h x) =? IdList.v hd); cbn; auto.
  - intros Habs. split.
    + rewrite Hrun, (Hsame Habs). reflexivity.
    + apply (IdListFacts.RemoveById_absent hd l xs HR Habs).
Qed.

Lemma Tag_unknown_handle_is_noop_witness :
  let xs := [IdList.mkT (IdList.mkH 3) 0 tt; IdList.mkT (IdList.mkH 5) 2 tt] in
  let l := IdList.mk (live xs [None]) 2 3 in
  IdListSpec.Rep l xs /\
  (4 ∉ (IdListSpec.hv <$> xs)) /\
  (exists l',
      IdList.Tag (IdList.mkH 5) 9 l = Ok l' /\
      IdListSpec.Rep l'
        [IdList.mkT (IdList.mkH 3) 0 tt; IdList.mkT (IdList.mkH 5) 9 tt] /\
      IdList.n l' = 2 /\ IdList.elemsAllocated l' = 3) /\
  IdList.Tag (IdList.mkH 4) 1 l = Ok l /\
  IdList.RemoveById (IdList.mkH 4) l = Err Oops.
Proof.
  intros xs l.
  assert (HR : IdListSpec.Rep l xs).
  { unfold IdListSpec.Rep. cbn. repeat split. exists [None]. reflexivity. }
  assert (Habs : 4 ∉ (IdListSpec.hv <$> xs)).
  { cbn. intros Hin. repeat (apply elem_of_cons in Hin as [Hin | Hin];
                             [discriminate Hin |]).
    inversion Hin. }
  split; [exact HR |]. split; [exact Habs |]. split.
  - destruct (proj1 (Tag_unknown_handle_is_noop (IdList.mkH 5) 9 l xs HR))
      as (l' & xs' & Hrun & HR' & Hxs' & _ & _ & Hn & Hcap & _).
    exists l'. split; [exact Hrun |]. rewrite Hxs' in HR'.
    split; [exact HR' |]. split; [exact Hn | exact Hcap].
  - exact (proj2 (Tag_unknown_handle_is_noop (IdList.mkH 4) 1 l xs HR) Habs).
Defined.

(** C5: for every well-formed, ascending IdList that holds an element
    with the handle of [x], [Add x] is fatal: it ends in oops() and no
    list comes out. *)
Theorem Add_duplicate_is_fatal {P : Type}
    (x : IdList.Item P) (l : IdList.t P) (xs : list (IdList.Item P)) :
  IdListSpec.Rep l xs -> IdListSpec.ascending xs ->
  IdListSpec.hv x ∈ (IdListSpec.hv <$> xs) ->
  IdList.Add x l = Err Oops.
Proof.
  intros HR Hasc Hin.
  apply (proj1 (IdListFacts.Add_spec x l xs HR Hasc) Hin).
Qed.

(** C6: for every well-formed, ascending IdList and every element [x]
    whose handle no element has, [Add x] returns, and in the list that
    comes out both FindById and FindByIdNoOops of the handle of [x]
    return a pointer to an element equal to [x]. *)
Theorem FindById_after_Add {P : Type}
    (x : IdList.Item P) (l : IdList.t P) (xs : list (IdList.Item P)) :
  IdListSpec.Rep l xs -> IdListSpec.ascending xs ->
  IdListSpec.hv x ∉ (IdListSpec.hv <$> xs) ->
  exists l' i,
    IdList.Add x l = Ok l' /\
    IdList.FindById (IdList.h x) l' = Ok i /\
    IdList.FindByIdNoOops (IdList.h x) l' = Ok (Some i) /\
    rd (IdList.elem l') i = Ok x.
Proof.
  intros HR Hasc Hout.
  destruct (proj2 (IdListFacts.Add_spec x l xs HR Hasc) Hout)
    as (l' & ys & zs & Hadd & Hxs & HR' & Hlt & Hgt).
  assert (Hasc' : IdListSpec.ascending (ys ++ x :: zs)).
  { apply IdListFacts.ascending_insert;
      [rewrite <- Hxs; exact Hasc | exact Hlt | exact Hgt]. }
  assert (Hfind : IdList.FindByIdNoOops (IdList.h x) l'
                  = Ok (Some (Z.of_nat (length ys)))).
  { apply (IdListFacts.FindByIdNoOops_found _ l' (ys ++ x :: zs) (length ys) x);
      [exact HR' | exact Hasc' | apply list_lookup_middle; reflexivity
      | reflexivity]. }
  exists l', (Z.of_nat (length ys)).
  split; [exact Hadd |]. split; [| split; [exact Hfind |]].
  - unfold IdList.FindById. rewrite Hfind. reflexivity.
  - destruct HR' as (_ & _ & junk & ->). apply rd_mid.
Qed.

Lemma FindById_after_Add_witness :
  let xs := [IdList.mkT (IdList.mkH 3) 0 tt; IdList.mkT (IdList.mkH 5) 0 tt] in
  let l := IdList.mk (live xs [None]) 2 3 in
  let x := IdList.mkT (IdList.mkH 4) 7 tt in
  IdListSpec.Rep l xs /\ IdListSpec.ascending xs /\
  (IdListSpec.hv x ∉ (IdListSpec.hv <$> xs)) /\
  exists l' i,
    IdList.Add x l = Ok l' /\
    IdList.FindById (IdList.mkH 4) l' = Ok i /\
    IdList.FindByIdNoOops (IdList.mkH 4) l' = Ok (Some i) /\
    rd (IdList.elem l') i = Ok x.
Proof.
  intros xs l x.
  assert (HR : IdListSpec.Rep l xs).
  { unfold IdListSpec.Rep. cbn. repeat split. exists [None]. reflexivity. }
  assert (Hasc : IdListSpec.ascending xs).
  { unfold IdListSpec.ascending. repeat constructor. }
  assert (Hout : IdListSpec.hv x ∉ (IdListSpec.hv <$> xs)).
  { cbn. intros Hin. repeat (apply elem_of_cons in Hin as [Hin | Hin];
                             [discriminate Hin |]).
    inversion Hin. }
  split; [exact HR |]. split; [exact Hasc |]. split; [exact Hout |].
  exact (FindById_after_Add x l xs HR Hasc Hout).
Defined.

Lemma Add_duplicate_is_fatal_witness :
  let xs := [IdList.mkT (IdList.mkH 3) 0 tt; IdList.mkT (IdList.mkH 5) 0 tt] in
  let l := IdList.mk (live xs [None]) 2 3 in
  let x := IdList.mkT (IdList.mkH 5) 7 tt in
  IdListSpec.Rep l xs /\ IdListSpec.ascending xs /\
  (IdListSpec.hv x ∈ (IdListSpec.hv <$> xs)) /\
  IdList.Add x l = Err Oops.
Proof.
  intros xs l x.
  assert (HR : IdListSpec.Rep l xs).
  { unfold IdListSpec.Rep. cbn. repeat split. exists [None]. reflexivity. }
  assert (Hasc : IdListSpec.ascending xs).
  { unfold IdListSpec.ascending. repeat constructor. }
  assert (Hin : IdListSpec.hv x ∈ (IdListSpec.hv <$> xs)).
  { cbn. right. left. }
  split; [exact HR |]. split; [exact Hasc |]. split; [exact Hin |].
  exact (Add_duplicate_is_fatal x l xs HR Hasc Hin).
Defined.

(** C4: every sequence of Add, AddAndAssignId and RemoveById calls on an
    empty IdList either ends in oops() or returns; when it returns, the
    container is well formed, its elements are in strictly ascending
    order of handle value, and no two of them have the same handle value.
    A prefix of a sequence is a sequence, so this holds after every
    call. *)
Theorem run_keeps_ascending {P : Type} (os : list (IdList.op P)) :
  match IdList.run os (IdList.empty, []) with
  | Ok s =>
      exists xs,
        IdListSpec.Rep (fst s) xs /\
        IdListSpec.ascending xs /\
        NoDup (IdListSpec.hv <$> xs)
  | Err e => e = Oops
  end.
Proof.
  pose proof (IdListFacts.run_inv os (IdList.empty, [])
                IdListFacts.Inv_empty) as Hrun.
  destruct (IdList.run os (IdList.empty, [])) as [s | e]; [| exact Hrun].
  destruct Hrun as (xs & HR & Hasc).
  exists xs. split; [exact HR |]. split; [exact Hasc |].
  apply IdListFacts.ascending_NoDup, Hasc.
Qed.

Lemma u32_small (z : Z) : 0 <= z < 2 ^ 32 -> u32 z = z.
Proof. intros Hz. unfold u32. apply Z.mod_small, Hz. Qed.

(* AddAndAssignId on a well-formed, ascending list *)
Lemma AddAndAssignId_spec {P : Type}
    (x : IdList.Item P) (l : IdList.t P) (xs : list (IdList.Item P)) :
  IdListSpec.Rep l xs -> IdListSpec.ascending xs ->
  let m := IdListSpec.max_id 0 xs in
  match IdList.AddAndAssignId x l with
  | Ok (hd, l') =>
      IdList.v hd = u32 (m + 1) /\
      (IdList.v hd ∉ (IdListSpec.hv <$> xs)) /\
      exists ys zs,
        xs = ys ++ zs /\
        IdListSpec.Rep l' (ys ++ IdList.set_h_v x (IdList.v hd) :: zs)
  | Err e => e = Oops /\ 2 ^ 32 - 1 <= m
  end.
Proof.
  intros HR Hasc m.
  rewrite (IdListFacts.AddAndAssignId_unfold x l xs HR). fold m.
  destruct (IdListFacts.Add_spec (IdList.set_h_v x (u32 (m + 1))) l xs HR Hasc)
    as [Hdup Hnew].
  rewrite IdListFacts.hv_set_h_v in Hdup, Hnew.
  destruct (decide (u32 (m + 1) ∈ (IdListSpec.hv <$> xs))) as [Hin | Hout].
  - rewrite (Hdup Hin). cbn [bind]. split; [reflexivity |].
    destruct (Z.le_gt_cases (2 ^ 32 - 1) m) as [Hge | Hlt]; [exact Hge |].
    exfalso. pose proof (IdListFacts.max_id_ge xs 0) as H0. fold m in H0.
    rewrite u32_small in Hin by lia.
    apply list_elem_of_fmap in Hin as (y & Hy & Hin).
    pose proof (IdListFacts.max_id_upper xs 0 y Hin) as Hle. fold m in Hle. lia.
  - destruct (Hnew Hout) as (l' & ys & zs & -> & Hxs & HR' & _).
    cbn [bind IdList.v]. split; [reflexivity |]. split; [exact Hout |].
    exists ys, zs. split; [exact Hxs | exact HR'].
Qed.

(** C3 (as amended): take a well-formed IdList with ascending handles (the
    empty one, say) and any sequence of Add, AddAndAssignId and RemoveById
    calls on it that returns.  AddAndAssignId on the container that
    results computes [m], the largest handle value of the elements now in
    it (0 when there is none), and assigns the uint32_t value [m + 1],
    that is [(m + 1) mod 2^32].  When it returns, the handle it assigned
    is the handle of no element in the container at that moment, and the
    element is stored under it; otherwise it ended in oops() and
    [m >= 2^32 - 1].  When [m < 2^32 - 1] it returns, and the handle is
    [m + 1], above the handle of every element in the container.  Nothing
    is said of the handles of elements removed before. *)
Theorem AddAndAssignId_handle_not_present {P : Type}
    (l0 : IdList.t P) (tr0 : list Z) (os : list (IdList.op P))
    (l : IdList.t P) (tr : list Z) (x : IdList.Item P) :
  IdListSpec.Inv l0 ->
  IdList.run os (l0, tr0) = Ok (l, tr) ->
  exists xs m,
    IdListSpec.Rep l xs /\
    IdList.MaximumId l = Ok m /\
    (forall y, y ∈ xs -> IdListSpec.hv y <= m) /\
    (m = 0 \/ exists y, y ∈ xs /\ IdListSpec.hv y = m) /\
    match IdList.AddAndAssignId x l with
    | Ok (hd, l') =>
        IdList.v hd = u32 (m + 1) /\
        (IdList.v hd ∉ (IdListSpec.hv <$> xs)) /\
        exists ys zs,
          xs = ys ++ zs /\
          IdListSpec.Rep l' (ys ++ IdList.set_h_v x (IdList.v hd) :: zs)
    | Err e => e = Oops /\ 2 ^ 32 - 1 <= m
    end /\
    (m < 2 ^ 32 - 1 ->
     (exists l', IdList.AddAndAssignId x l = Ok (IdList.mkH (m + 1), l')) /\
     forall y, y ∈ xs -> IdListSpec.hv y < m + 1).
Proof.
  intros HI0 Hrun.
  pose proof (IdListFacts.run_inv os (l0, tr0) HI0) as HI.
  rewrite Hrun in HI. destruct HI as (xs & HR & Hasc).
  exists xs, (IdListSpec.max_id 0 xs).
  pose proof (AddAndAssignId_spec x l xs HR Hasc) as Hspec. cbn zeta in Hspec.
  split; [exact HR |]. split; [apply IdListFacts.MaximumId_spec, HR |].
  split; [intros y Hy; apply IdListFacts.max_id_upper, Hy |].
  split; [apply IdListFacts.max_id_attained |].
  split; [exact Hspec |].
  intros Hm. pose proof (IdListFacts.max_id_ge xs 0) as H0.
  split.
  - destruct (IdList.AddAndAssignId x l) as [[hd l'] | e].
    + destruct Hspec as (Hv & _). rewrite u32_small in Hv by lia.
      exists l'. destruct hd as [k]. cbn in Hv. rewrite Hv. reflexivity.
    + destruct Hspec as [_ Hge]. lia.
  - intros y Hy. pose proof (IdListFacts.max_id_upper xs 0 y Hy). lia.
Qed.

Lemma AddAndAssignId_handle_not_present_witness :
  let x := IdList.mkT (IdList.mkH 0) 0 tt in
  let os := [IdList.OpAddAndAssignId x; IdList.OpAddAndAssignId x;
             IdList.OpRemoveById (IdList.mkH 1)] in
  IdListSpec.Inv (@IdList.empty unit) /\
  exists l tr,
    IdList.run os (IdList.empty, []) = Ok (l, tr) /\
    IdList.MaximumId l = Ok 2 /\
    exists l', IdList.AddAndAssignId x l = Ok (IdList.mkH (2 + 1), l').
Proof.
  intros x os. split; [apply IdListFacts.Inv_empty |]. eexists _, _.
  split; [vm_compute; reflexivity |].
  split; [vm_compute; reflexivity |].
  match goal with
  | |- exists l', IdList.AddAndAssignId x ?l = _ =>
      destruct (AddAndAssignId_handle_not_present
                  IdList.empty [] os l [1; 2] x IdListFacts.Inv_empty)
        as (xs & m & _ & Hmax & _ & _ & _ & Hsmall);
        [vm_compute; reflexivity |]
  end.
  assert (Hm : m = 2) by (vm_compute in Hmax; congruence).
  rewrite Hm in Hsmall. apply Hsmall. lia.
Defined.

(** C3 (as stated) fails twice.  Two AddAndAssignId calls assign 1 and 2;
    after RemoveById of 2 the next AddAndAssignId assigns 2 again.
    And on a list whose largest handle is 2^32 - 1 AddAndAssignId
    assigns 0, not the maximum plus one. *)
Lemma AddAndAssignId_reuses_handle :
  let x := IdList.mkT (IdList.mkH 0) 0 tt in
  let os := [IdList.OpAddAndAssignId x; IdList.OpAddAndAssignId x;
             IdList.OpRemoveById (IdList.mkH 2); IdList.OpAddAndAssignId x] in
  let big := IdList.mkT (IdList.mkH 4294967295) 0 tt in
  (exists l, IdList.run os (IdList.empty, []) = Ok (l, [1; 2; 2])) /\
  ~ (forall (os : list (IdList.op unit)) l tr,
        IdList.run os (IdList.empty, []) = Ok (l, tr) -> NoDup tr) /\
  (exists l l',
      IdList.run [IdList.OpAdd big] (IdList.empty, []) = Ok (l, []) /\
      IdList.MaximumId l = Ok 4294967295 /\
      IdList.AddAndAssignId x l = Ok (IdList.mkH 0, l')).
Proof.
  intros x os big.
  assert (Hrun : exists l, IdList.run os (IdList.empty, []) = Ok (l, [1; 2; 2]))
    by (eexists; vm_compute; reflexivity).
  split; [exact Hrun |]. split.
  - intros Hclaim. destruct Hrun as (l & Hrun).
    specialize (Hclaim os l [1; 2; 2] Hrun).
    apply NoDup_cons in Hclaim as [_ Hclaim].
    apply NoDup_cons in Hclaim as [Hnotin _].
    apply Hnotin. left.
  - eexists _, _. split; [vm_compute; reflexivity |].
    split; vm_compute; reflexivity.
Qed.

(** * Further properties of the code *)

(** ** List<T>: Add, AddToBeginning, First and NextAfter, Reverse *)

Module ListOpsFacts.
Section WithT.
Context {T : Type}.
Import ListSpec ListOps.
Implicit Types (l : List.t T) (x y z : T) (xs ys zs : list T).
Implicit Types (b junk : store T).

(* after AllocForOneMore there is a free cell behind the elements *)
Lemma AllocForOneMore_spec l xs :
  Rep l xs ->
  exists c junk,
    List.elem (List.AllocForOneMore l) = live xs (c :: junk) /\
    List.n (List.AllocForOneMore l) = Z.of_nat (length xs) /\
    List.elemsAllocated (List.AllocForOneMore l)
    = Z.of_nat (length (List.elem (List.AllocForOneMore l))) /\
    List.elemsAllocated (List.AllocForOneMore l)
    = (if List.n l <? List.elemsAllocated l then List.elemsAllocated l
       else (List.elemsAllocated l + 32) * 2).
Proof.
  intros (Hn & Hcap & junk & Hb). unfold List.AllocForOneMore.
  assert (Hlen : length (List.elem l) = (length xs + length junk)%nat)
    by (rewrite Hb; apply live_length).
  rewrite (Z.ltb_antisym (List.elemsAllocated l) (List.n l)).
  destruct (Z.leb_spec (List.elemsAllocated l) (List.n l)) as [Hfull | Hfree];
    cbn [negb].
  - cbn [List.elem List.n List.elemsAllocated].
    assert (junk = []) as -> by (apply nil_length_inv; lia).
    rewrite MemRealloc_length by lia.
    rewrite Hb, MemRealloc_live by (rewrite <- Hb; lia).
    rewrite <- Hb. cbn [app].
    destruct (Z.to_nat ((List.elemsAllocated l + 32) * 2)
              - length (List.elem l))%nat as [| k] eqn:Hk; [lia |].
    cbn [replicate]. eauto 6.
  - destruct junk as [| c junk]; [cbn in Hlen; lia |]. eauto 6.
Qed.

Lemma List_Add_spec x l xs :
  Rep l xs ->
  exists l',
    List.Add x l = Ok l' /\ Rep l' (xs ++ [x]) /\
    List.elemsAllocated l'
    = (if List.n l <? List.elemsAllocated l then List.elemsAllocated l
       else (List.elemsAllocated l + 32) * 2).
Proof.
  intros HR.
  destruct (AllocForOneMore_spec l xs HR) as (c & junk & Hb & Hn & Hcap & Hgrow).
  unfold List.Add. cbn zeta. rewrite Hb, Hn.
  pose proof (wr_at xs c junk x) as Hwr. rewrite Hwr. cbn [bind].
  eexists. split; [reflexivity |]. split; [| exact Hgrow].
  unfold Rep. cbn [List.elem List.n List.elemsAllocated].
  rewrite Hcap, Hb, !live_length, length_app. cbn [length].
  split; [lia | split; [lia |]].
  exists junk. rewrite live_app. reflexivity.
Qed.

Lemma AddToBeginning_spec x l xs :
  Rep l xs ->
  exists l',
    AddToBeginning x l = Ok l' /\ Rep l' (x :: xs) /\
    List.elemsAllocated l'
    = (if List.n l <? List.elemsAllocated l then List.elemsAllocated l
       else (List.elemsAllocated l + 32) * 2).
Proof.
  intros HR.
  destruct (AllocForOneMore_spec l xs HR) as (c & junk & Hb & Hn & Hcap & Hgrow).
  unfold AddToBeginning. cbn zeta. rewrite Hb, Hn.
  destruct (memmove_shift [] xs c junk 0 (Z.of_nat (length xs))
              eq_refl eq_refl) as (d & Hmv).
  cbn [app] in Hmv. change (0 + 1) with 1 in Hmv. rewrite Hmv. cbn [bind].
  pose proof (wr_at [] d (live xs junk) x) as Hwr.
  cbn [length] in Hwr. change (Z.of_nat 0) with 0 in Hwr.
  rewrite Hwr. cbn [bind].
  eexists. split; [reflexivity |]. split; [| exact Hgrow].
  unfold Rep. cbn [List.elem List.n List.elemsAllocated].
  rewrite Hcap, Hb, !live_length. cbn [length]. rewrite live_length.
  split; [lia | split; [lia |]].
  exists junk. reflexivity.
Qed.

(** *** First and NextAfter *)

Lemma List_walk_from l junk zs :
  forall ys fuel,
    List.elem l = live (ys ++ zs) junk ->
    List.n l = Z.of_nat (length (ys ++ zs)) ->
    zs <> [] -> (length zs <= fuel)%nat ->
    walk fuel l (Some (Z.of_nat (length ys))) = Ok zs.
Proof.
  induction zs as [| z zs IH]; intros ys fuel Hb Hn Hne Hfuel; [congruence |].
  destruct fuel as [| fuel]; [cbn in Hfuel; lia |].
  cbn [walk NextAfter]. rewrite Hb, rd_mid. cbn [bind].
  rewrite length_app in Hn. cbn [length] in Hn, Hfuel.
  destruct zs as [| z' zs]; cbn [length] in Hn, Hfuel.
  - destruct (Z.eqb_spec (Z.of_nat (length ys)) (List.n l - 1)); [| lia].
    destruct fuel; reflexivity.
  - destruct (Z.eqb_spec (Z.of_nat (length ys)) (List.n l - 1)); [lia |].
    replace (Z.of_nat (length ys) + 1) with (Z.of_nat (length (ys ++ [z])))
      by (rewrite length_app; cbn; lia).
    rewrite (IH (ys ++ [z]) fuel); [reflexivity | | | discriminate | cbn; lia].
    + rewrite <- app_assoc. exact Hb.
    + rewrite <- app_assoc, length_app. cbn [app length]. lia.
Qed.

Lemma List_walk_spec l xs (fuel : nat) :
  Rep l xs -> (length xs <= fuel)%nat -> walk fuel l (First l) = Ok xs.
Proof.
  intros (Hn & _ & junk & Hb) Hfuel. unfold First.
  destruct xs as [| x xs].
  - rewrite Hn. cbn. destruct fuel; reflexivity.
  - destruct (Z.eqb_spec (List.n l) 0) as [H0 | _]; [cbn in Hn; lia |].
    apply (List_walk_from l junk (x :: xs) [] fuel); try assumption. discriminate.
Qed.

Lemma Add_all_spec zs :
  forall l xs,
    Rep l xs -> exists l', Add_all zs l = Ok l' /\ Rep l' (xs ++ zs).
Proof.
  induction zs as [| z zs IH]; intros l xs HR.
  - exists l. rewrite app_nil_r. split; [reflexivity | exact HR].
  - destruct (List_Add_spec z l xs HR) as (l1 & Hadd & HR1 & _).
    destruct (IH l1 (xs ++ [z]) HR1) as (l' & Hall & HR').
    exists l'. cbn [Add_all]. rewrite Hadd. cbn [bind].
    split; [exact Hall |]. rewrite <- app_assoc in HR'. exact HR'.
Qed.

(** *** Reverse *)

Lemma two_ends (mid : list T) :
  (2 <= length mid)%nat -> exists a m c, mid = a :: m ++ [c].
Proof.
  destruct mid as [| a mid]; [cbn; lia |].
  destruct mid as [| a' mid'] using rev_ind; [cbn; lia |].
  intros _. eauto.
Qed.

Lemma SWAP_ends pre a m c post junk (i j : Z) :
  i = Z.of_nat (length pre) -> j = Z.of_nat (length (pre ++ a :: m)) ->
  SWAP (live (pre ++ a :: m ++ c :: post) junk) i j
  = Ok (live (pre ++ c :: m ++ a :: post) junk).
Proof.
  intros -> ->. unfold SWAP.
  rewrite rd_mid. cbn [bind].
  replace (pre ++ a :: m ++ c :: post) with ((pre ++ a :: m) ++ c :: post)
    by (rewrite <- app_assoc; reflexivity).
  rewrite rd_mid. cbn [bind].
  rewrite <- app_assoc. cbn [app]. rewrite wr_mid. cbn [bind].
  replace (pre ++ c :: m ++ c :: post) with ((pre ++ c :: m) ++ c :: post)
    by (rewrite <- app_assoc; reflexivity).
  replace (length (pre ++ a :: m)) with (length (pre ++ c :: m))
    by (rewrite !length_app; reflexivity).
  rewrite wr_mid. rewrite <- app_assoc. reflexivity.
Qed.

(* [pre] and [post] are exchanged already, [mid] is still to do *)
Lemma Reverse_loop_spec junk (n : Z) :
  forall k mid pre post i,
    (2 * k <= length mid < 2 * k + 2)%nat ->
    length post = length pre ->
    i = Z.of_nat (length pre) ->
    n = Z.of_nat (length (pre ++ mid ++ post)) ->
    Reverse_loop k (live (pre ++ mid ++ post) junk) i n
    = Ok (live (pre ++ reverse mid ++ post) junk).
Proof.
  induction k as [| k IH]; intros mid pre post i Hk Hpp Hi Hn.
  - cbn [Reverse_loop]. destruct mid as [| a [| a' mid]]; cbn in Hk; try lia;
      reflexivity.
  - destruct (two_ends mid ltac:(lia)) as (a & m & c & ->).
    cbn [Reverse_loop].
    rewrite !length_app in Hn. cbn [length] in Hn, Hk.
    rewrite length_app in Hn, Hk. cbn [length] in Hn, Hk.
    replace ((a :: m ++ [c]) ++ post) with (a :: m ++ c :: post)
      by (cbn; rewrite <- app_assoc; reflexivity).
    rewrite (SWAP_ends pre a m c post junk i (n - 1 - i) Hi)
      by (rewrite length_app; cbn [length]; lia).
    cbn [bind].
    replace (pre ++ c :: m ++ a :: post) with ((pre ++ [c]) ++ m ++ (a :: post))
      by (rewrite <- app_assoc; reflexivity).
    rewrite (IH m (pre ++ [c]) (a :: post) (i + 1)).
    + rewrite reverse_cons, reverse_app. cbn [reverse app].
      rewrite <- !app_assoc. reflexivity.
    + lia.
    + rewrite length_app. cbn. lia.
    + rewrite length_app. cbn. lia.
    + rewrite !length_app. cbn [length]. lia.
Qed.

Lemma Reverse_spec l xs :
  Rep l xs ->
  exists l',
    Reverse l = Ok l' /\ Rep l' (reverse xs) /\
    List.elemsAllocated l' = List.elemsAllocated l.
Proof.
  intros (Hn & Hcap & junk & Hb). unfold Reverse.
  assert (Hk : (2 * Z.to_nat (Z.quot (List.n l) 2) <= length xs
                < 2 * Z.to_nat (Z.quot (List.n l) 2) + 2)%nat).
  { rewrite Hn, Z.quot_div_nonneg by lia.
    pose proof (Z.div_mod (Z.of_nat (length xs)) 2 ltac:(lia)).
    pose proof (Z.mod_pos_bound (Z.of_nat (length xs)) 2 ltac:(lia)).
    pose proof (Z.div_pos (Z.of_nat (length xs)) 2 ltac:(lia) ltac:(lia)).
    lia. }
  pose proof (Reverse_loop_spec junk (List.n l) _ xs [] [] 0 Hk
                eq_refl eq_refl) as Hloop.
  cbn [app] in Hloop. rewrite !app_nil_r in Hloop.
  rewrite Hb, (Hloop Hn). cbn [bind].
  eexists. split; [reflexivity |]. split; [| reflexivity].
  unfold Rep. cbn [List.elem List.n List.elemsAllocated].
  rewrite length_reverse, Hcap, Hb, !live_length, length_reverse.
  split; [exact Hn | split; [reflexivity | eauto]].
Qed.

End WithT.
End ListOpsFacts.

(** ** IdList<T,H>: lookup, removal, traversal *)

Module IdListOpsFacts.
Section WithP.
Context {P : Type}.
Import IdList IdListSpec IdListFacts IdListOps.
Implicit Types (l : IdList.t P) (x y z : Item P) (xs ys zs : list (Item P)).
Implicit Types (junk b : store (Item P)) (hd : Handle) (key : Z).

Lemma rd_live_inv xs junk (i : Z) y :
  0 <= i < Z.of_nat (length xs) -> rd (live xs junk) i = Ok y ->
  xs !! Z.to_nat i = Some y.
Proof.
  intros Hi Hrd. destruct (rd_live_Z xs junk i Hi) as (x & Hx & Hrd').
  congruence.
Qed.

(* what the pointer that FindByIdNoOops returns points to *)
Lemma found_iff hd l xs y :
  Rep l xs -> ascending xs ->
  (exists i, FindByIdNoOops hd l = Ok (Some i) /\ rd (elem l) i = Ok y)
  <-> (y ∈ xs /\ hv y = v hd).
Proof.
  intros HR Hasc. split.
  - intros (i & Hfind & Hrd).
    pose proof (FindByIdNoOops_spec hd l xs HR Hasc) as Hs.
    rewrite Hfind in Hs. destruct Hs as (Hi & x & Hx & Hxk).
    destruct HR as (_ & _ & junk & Hb). rewrite Hb in Hrd.
    pose proof (lookup_lt_Some _ _ _ Hx) as Hlt.
    rewrite (rd_live_inv xs junk i y ltac:(lia) Hrd) in Hx.
    injection Hx as ->. split; [| exact Hxk].
    eapply list_elem_of_lookup_2, rd_live_inv; [| exact Hrd]. lia.
  - intros (Hy & Hyk). apply list_elem_of_lookup_1 in Hy as (j & Hj).
    exists (Z.of_nat j).
    split; [apply (FindByIdNoOops_found hd l xs j y HR Hasc Hj Hyk) |].
    destruct HR as (_ & _ & junk & ->). apply rd_live, Hj.
Qed.

Lemma not_found_iff hd l xs :
  Rep l xs -> ascending xs ->
  FindByIdNoOops hd l = Ok None <-> v hd ∉ (hv <$> xs).
Proof.
  intros HR Hasc. split.
  - intros Hfind. pose proof (FindByIdNoOops_spec hd l xs HR Hasc) as Hs.
    rewrite Hfind in Hs. exact Hs.
  - apply FindByIdNoOops_absent, HR.
Qed.

Lemma IdList_walk_from l junk zs :
  forall ys fuel,
    elem l = live (ys ++ zs) junk ->
    n l = Z.of_nat (length (ys ++ zs)) ->
    zs <> [] -> (length zs <= fuel)%nat ->
    walk fuel l (Some (Z.of_nat (length ys))) = Ok zs.
Proof.
  induction zs as [| z zs IH]; intros ys fuel Hb Hn Hne Hfuel; [congruence |].
  destruct fuel as [| fuel]; [cbn in Hfuel; lia |].
  cbn [walk NextAfter]. rewrite Hb, rd_mid. cbn [bind].
  rewrite length_app in Hn. cbn [length] in Hn, Hfuel.
  destruct zs as [| z' zs]; cbn [length] in Hn, Hfuel.
  - destruct (Z.eqb_spec (Z.of_nat (length ys)) (n l - 1)); [| lia].
    destruct fuel; reflexivity.
  - destruct (Z.eqb_spec (Z.of_nat (length ys)) (n l - 1)); [lia |].
    replace (Z.of_nat (length ys) + 1) with (Z.of_nat (length (ys ++ [z])))
      by (rewrite length_app; cbn; lia).
    rewrite (IH (ys ++ [z]) fuel); [reflexivity | | | discriminate | cbn; lia].
    + rewrite <- app_assoc. exact Hb.
    + rewrite <- app_assoc, length_app. cbn [app length]. lia.
Qed.

Lemma IdList_walk_spec l xs (fuel : nat) :
  Rep l xs -> (length xs <= fuel)%nat -> walk fuel l (First l) = Ok xs.
Proof.
  intros (Hn & _ & junk & Hb) Hfuel. unfold First.
  destruct xs as [| x xs].
  - rewrite Hn. cbn. destruct fuel; reflexivity.
  - destruct (Z.eqb_spec (n l) 0) as [H0 | _]; [cbn in Hn; lia |].
    apply (IdList_walk_from l junk (x :: xs) [] fuel); try assumption. discriminate.
Qed.

(* Tag(hd, 1) on a list with ascending handles marks the one element
   that has the handle *)
Lemma retag_one key tg ys x zs :
  ascending (ys ++ x :: zs) -> hv x = key ->
  retag key tg <$> (ys ++ x :: zs) = ys ++ set_tag x tg :: zs.
Proof.
  intros Hasc Hx.
  assert (Hys : key ∉ (hv <$> ys)).
  { intros Hin. apply handle_lookup in Hin as (j & y & Hj & Hy).
    pose proof (lookup_lt_Some _ _ _ Hj) as Hlt.
    pose proof (ascending_lookup _ Hasc j (length ys) y x Hlt
                  ltac:(rewrite lookup_app_l by lia; exact Hj)
                  ltac:(apply list_lookup_middle; reflexivity)). lia. }
  assert (Hzs : key ∉ (hv <$> zs)).
  { intros Hin. apply handle_lookup in Hin as (j & z & Hj & Hz).
    pose proof (ascending_lookup _ Hasc (length ys) (length ys + S j) x z
                  ltac:(lia)
                  ltac:(apply list_lookup_middle; reflexivity)
                  ltac:(rewrite lookup_app_r by lia;
                        replace (length ys + S j - length ys)%nat with (S j) by lia;
                        exact Hj)). lia. }
  rewrite fmap_app, fmap_cons, !retag_absent by assumption.
  unfold retag at 1. rewrite Hx, Z.eqb_refl. reflexivity.
Qed.

(* RemoveById is ClearTags, Tag(hd, 1), RemoveTagged when the handle is
   there *)
Lemma RemoveById_as_Tag hd l xs :
  Rep l xs -> ascending xs -> v hd ∈ (hv <$> xs) ->
  RemoveById hd l = (do l1 <- ClearTags l; do l2 <- Tag hd 1 l1; RemoveTagged l2).
Proof.
  intros HR Hasc Hin.
  destruct (ClearTags_spec l xs HR) as (l1 & Hclr & HR1 & Hcap1).
  set (clr := fun y : Item P => set_tag y 0) in *.
  apply list_elem_of_fmap in Hin as (x & Hx & Hin).
  apply list_elem_of_split in Hin as (ys & zs & Hxs).
  assert (Hasc1 : ascending (clr <$> xs))
    by (apply ascending_fmap; [reflexivity | exact Hasc]).
  assert (Hj : (clr <$> xs) !! length (clr <$> ys) = Some (clr x)).
  { rewrite Hxs, fmap_app, fmap_cons. apply list_lookup_middle. reflexivity. }
  unfold RemoveById, FindById. rewrite Hclr. cbn [bind].
  rewrite (FindByIdNoOops_found hd l1 _ _ _ HR1 Hasc1 Hj (eq_sym Hx)).
  cbn [bind].
  destruct HR1 as (Hn1 & Hc1 & junk & Hb1).
  rewrite Hb1, (rd_live _ _ _ _ Hj). cbn [bind].
  unfold Tag. rewrite Hn1, Nat2Z.id, Hb1.
  pose proof (Tag_loop_spec (v hd) 1 (clr <$> xs) [] junk 0 eq_refl) as Ht.
  cbn [app] in Ht. rewrite Ht. cbn [bind]. clear Ht.
  rewrite Hxs, fmap_app, fmap_cons in Hasc1.
  assert (Hre : retag (v hd) 1 <$> (clr <$> xs)
                = (clr <$> ys) ++ set_tag (clr x) 1 :: (clr <$> zs)).
  { rewrite Hxs, fmap_app, fmap_cons.
    apply retag_one; [exact Hasc1 | symmetry; exact Hx]. }
  rewrite Hre.
  assert (Hwr : wr (live (clr <$> xs) junk) (Z.of_nat (length (clr <$> ys)))
                  (set_tag (clr x) 1)
                = Ok (live ((clr <$> ys) ++ set_tag (clr x) 1 :: (clr <$> zs)) junk)).
  { rewrite Hxs, fmap_app, fmap_cons. apply wr_mid. }
  rewrite Hwr. reflexivity.
Qed.

(* what Add and RemoveById do to elemsAllocated *)
Lemma Add_capacity x l l' :
  Add x l = Ok l' ->
  elemsAllocated l' = elemsAllocated (grown l) /\ n l' = n (grown l) + 1.
Proof.
  rewrite Add_unfold.
  destruct (Add_search _ _ _ _ _) as [i |]; [cbn [bind] | discriminate].
  destruct (memmove _ _ _ _) as [b1 |]; [cbn [bind] | discriminate].
  destruct (wr b1 i x) as [b2 |]; [cbn [bind] | discriminate].
  intros [= <-]. split; reflexivity.
Qed.

Lemma grown_capacity l :
  0 <= elemsAllocated l ->
  elemsAllocated l <= elemsAllocated (grown l) /\ n (grown l) = n l /\
  elemsAllocated (grown l)
  = (if n l <? elemsAllocated l then elemsAllocated l
     else (elemsAllocated l + 32) * 2).
Proof.
  intros Hc. unfold grown. rewrite Z.geb_leb, (Z.ltb_antisym _ (n l)).
  destruct (elemsAllocated l <=? n l); cbn; lia.
Qed.

(* with ascending handles the handle of an element is nowhere else *)
Lemma absent_elsewhere ys x zs :
  ascending (ys ++ x :: zs) -> hv x ∉ (hv <$> (ys ++ zs)).
Proof.
  intros Hasc. apply ascending_NoDup in Hasc.
  rewrite fmap_app, fmap_cons in Hasc.
  apply NoDup_app in Hasc as (_ & Hdisj & Hnd).
  apply NoDup_cons in Hnd as [Hzs _].
  rewrite fmap_app, elem_of_app. intros [Hin | Hin]; [| exact (Hzs Hin)].
  apply (Hdisj _ Hin). left.
Qed.

(** *** Sequences of calls *)

Lemma handles_insert ys x zs k :
  k ∈ (hv <$> (ys ++ zs)) -> k ∈ (hv <$> (ys ++ x :: zs)).
Proof.
  rewrite !fmap_app, fmap_cons, !elem_of_app, elem_of_cons. tauto.
Qed.

(* without RemoveById every handle that was assigned is still there *)
Lemma run_no_removal os :
  forall l tr xs,
    Rep l xs -> ascending xs -> NoDup tr ->
    (forall k, k ∈ tr -> k ∈ (hv <$> xs)) ->
    Forall (fun o => removes o = false) os ->
    match run os (l, tr) with
    | Ok s => NoDup (snd s)
    | Err e => e = Oops
    end.
Proof.
  induction os as [| o os IH]; intros l tr xs HR Hasc Hnd Hsub Hos;
    [exact Hnd |].
  apply Forall_cons in Hos as [Ho Hos]. cbn [run].
  destruct o as [x | x | hd]; [| | discriminate Ho]; cbn [step fst snd].
  - destruct (Add_spec x l xs HR Hasc) as [Hdup Hnew].
    destruct (decide (hv x ∈ (hv <$> xs))) as [Hin | Hout].
    + rewrite (Hdup Hin). reflexivity.
    + destruct (Hnew Hout) as (l' & ys & zs & -> & Hxs & HR' & Hlt & Hgt).
      cbn [bind]. apply (IH l' tr (ys ++ x :: zs)); try assumption.
      * apply ascending_insert;
          [rewrite <- Hxs; exact Hasc | exact Hlt | exact Hgt].
      * intros k Hk. apply handles_insert. rewrite <- Hxs. apply Hsub, Hk.
  - rewrite (AddAndAssignId_unfold x l xs HR).
    set (k := u32 (max_id 0 xs + 1)).
    destruct (Add_spec (set_h_v x k) l xs HR Hasc) as [Hdup Hnew].
    rewrite hv_set_h_v in Hdup, Hnew.
    destruct (decide (k ∈ (hv <$> xs))) as [Hin | Hout].
    + rewrite (Hdup Hin). reflexivity.
    + destruct (Hnew Hout) as (l' & ys & zs & -> & Hxs & HR' & Hlt & Hgt).
      cbn [bind fst snd v].
      apply (IH l' (tr ++ [k]) (ys ++ set_h_v x k :: zs)); try assumption.
      * apply ascending_insert;
          [rewrite <- Hxs; exact Hasc | exact Hlt | exact Hgt].
      * apply NoDup_app. split; [exact Hnd |]. split; [| apply NoDup_singleton].
        intros k' Hk' Hk. apply list_elem_of_singleton in Hk. subst k'.
        apply Hout, Hsub, Hk'.
      * intros k' Hk'. apply elem_of_app in Hk' as [Hk' | Hk'].
        -- apply handles_insert. rewrite <- Hxs. apply Hsub, Hk'.
        -- apply list_elem_of_singleton in Hk'. subst k'.
           rewrite fmap_app, fmap_cons, elem_of_app, elem_of_cons.
           right. left. reflexivity.
Qed.

Lemma elem_of_seq_Z (j : nat) (k : Z) :
  k ∈ (Z.of_nat <$> seq 1 j) <-> 1 <= k <= Z.of_nat j.
Proof.
  rewrite list_elem_of_fmap. split.
  - intros (i & -> & Hi). apply elem_of_seq in Hi. lia.
  - intros Hk. exists (Z.to_nat k). split; [lia |]. apply elem_of_seq. lia.
Qed.

Lemma max_id_seq xs (j : nat) :
  hv <$> xs = Z.of_nat <$> seq 1 j -> max_id 0 xs = Z.of_nat j.
Proof.
  intros Hh. pose proof (max_id_ge xs 0) as H0.
  assert (Hle : max_id 0 xs <= Z.of_nat j).
  { destruct (max_id_attained xs 0) as [-> | (y & Hy & <-)]; [lia |].
    apply (list_elem_of_fmap_2 hv) in Hy. rewrite Hh in Hy.
    apply elem_of_seq_Z in Hy. lia. }
  destruct j as [| j]; [lia |].
  assert (Hin : Z.of_nat (S j) ∈ (hv <$> xs))
    by (rewrite Hh; apply elem_of_seq_Z; lia).
  apply list_elem_of_fmap in Hin as (y & Hy & Hin).
  pose proof (max_id_upper xs 0 y Hin). lia.
Qed.

(* AddAndAssignId calls on a list whose handles are 1 .. j *)
Lemma run_assign_seq zs :
  forall l tr xs (j : nat),
    Rep l xs -> ascending xs -> hv <$> xs = Z.of_nat <$> seq 1 j ->
    Z.of_nat (j + length zs) < 2 ^ 32 ->
    exists l',
      run (OpAddAndAssignId <$> zs) (l, tr)
      = Ok (l', tr ++ (Z.of_nat <$> seq (S j) (length zs))) /\
      Rep l' (xs ++ zip_with set_h_v zs (Z.of_nat <$> seq (S j) (length zs))).
Proof.
  induction zs as [| z zs IH]; intros l tr xs j HR Hasc Hh Hj.
  - exists l. cbn. rewrite !app_nil_r. split; [reflexivity | exact HR].
  - cbn [length] in Hj. cbn [fmap list_fmap run step fst snd].
    rewrite (AddAndAssignId_unfold z l xs HR), (max_id_seq xs j Hh).
    rewrite u32_small by lia.
    set (k := Z.of_nat j + 1).
    destruct (Add_spec (set_h_v z k) l xs HR Hasc) as [_ Hnew].
    rewrite hv_set_h_v in Hnew.
    destruct Hnew as (l1 & ys & ws & Hadd & Hxs & HR1 & Hlt & Hgt).
    { rewrite Hh, elem_of_seq_Z. unfold k. lia. }
    assert (ws = []) as ->.
    { destruct ws as [| w ws]; [reflexivity |]. exfalso.
      apply Forall_cons in Hgt as [Hw _].
      assert (Hin : hv w ∈ (hv <$> xs)).
      { apply list_elem_of_fmap_2. rewrite Hxs.
        apply elem_of_app. right. left. }
      rewrite Hh in Hin. apply elem_of_seq_Z in Hin. unfold k in Hw. lia. }
    rewrite app_nil_r in Hxs. subst ys.
    rewrite Hadd. cbn [bind fst snd v].
    destruct (IH l1 (tr ++ [k]) (xs ++ [set_h_v z k]) (S j)) as (l' & Hrun & HR').
    + exact HR1.
    + apply ascending_insert; [rewrite app_nil_r; exact Hasc | exact Hlt
                               | constructor].
    + rewrite fmap_app, Hh, seq_S, fmap_app. cbn. unfold k.
      do 2 f_equal. lia.
    + lia.
    + exists l'. split.
      * rewrite Hrun. f_equal. f_equal. rewrite <- app_assoc. cbn.
        do 3 f_equal. unfold k. lia.
      * rewrite <- app_assoc in HR'. cbn [length seq fmap list_fmap zip_with].
        replace (Z.of_nat (S j)) with k by (unfold k; lia). exact HR'.
Qed.

(* no call makes the store smaller *)
Lemma step_capacity o (s s' : IdList.t P * list Z) :
  Inv (fst s) -> step o s = Ok s' ->
  elemsAllocated (fst s) <= elemsAllocated (fst s').
Proof.
  intros (xs & HR & Hasc) Hstep.
  assert (Hc : 0 <= elemsAllocated (fst s)) by (destruct HR as (_ & -> & _); lia).
  pose proof (grown_capacity (fst s) Hc) as (Hgrow & _).
  destruct o as [x | x | hd]; cbn [step] in Hstep.
  - destruct (Add x (fst s)) as [l' |] eqn:Hadd; [| discriminate].
    injection Hstep as <-. cbn [fst snd].
    destruct (Add_capacity _ _ _ Hadd) as [-> _]. exact Hgrow.
  - rewrite (AddAndAssignId_unfold x (fst s) xs HR) in Hstep.
    destruct (Add _ (fst s)) as [l' |] eqn:Hadd; [| discriminate].
    injection Hstep as <-. cbn [fst snd].
    destruct (Add_capacity _ _ _ Hadd) as [-> _]. exact Hgrow.
  - destruct (decide (v hd ∈ (hv <$> xs))) as [Hin | Hout].
    + apply list_elem_of_fmap in Hin as (x & Hx & Hin).
      apply list_elem_of_split in Hin as (ys & zs & Hxs).
      destruct (proj2 (RemoveById_spec hd (fst s) xs HR Hasc) ys x zs Hxs
                  (eq_sym Hx)) as (l' & Hrm & _ & Hcap).
      rewrite Hrm in Hstep. injection Hstep as <-. cbn [fst]. lia.
    + rewrite (RemoveById_absent hd (fst s) xs HR Hout) in Hstep. discriminate.
Qed.

Lemma run_capacity os :
  forall s s' : IdList.t P * list Z,
    Inv (fst s) -> run os s = Ok s' ->
    elemsAllocated (fst s) <= elemsAllocated (fst s').
Proof.
  induction os as [| o os IH]; intros s s' HI Hrun.
  - injection Hrun as <-. lia.
  - cbn [run] in Hrun. pose proof (step_inv o s HI) as HI1.
    destruct (step o s) as [s1 |] eqn:Hstep; [| discriminate].
    cbn [bind] in Hrun.
    pose proof (step_capacity o s s1 HI Hstep).
    pose proof (IH s1 s' HI1 Hrun). lia.
Qed.

(* Add calls alone keep elemsAllocated of the form 2^(6+j) - 64 and below
   2 * n + 64 *)
Lemma Add_cap_pow x l l' xs (j : nat) :
  Rep l xs -> Add x l = Ok l' ->
  elemsAllocated l + 64 = 2 ^ (6 + Z.of_nat j) ->
  elemsAllocated l < 2 * n l + 64 ->
  n l' = n l + 1 /\
  elemsAllocated l' < 2 * n l' + 64 /\
  exists j' : nat, elemsAllocated l' + 64 = 2 ^ (6 + Z.of_nat j').
Proof.
  intros HR Hadd Hpow Hlt.
  destruct (Add_capacity x l l' Hadd) as [Hcap Hn].
  assert (Hle : 0 <= n l <= elemsAllocated l).
  { destruct HR as (Hn0 & Hc0 & junk & Hb).
    rewrite Hn0, Hc0, Hb, live_length. lia. }
  destruct (grown_capacity l ltac:(lia)) as (_ & Hn' & Hgrow).
  rewrite Hn' in Hn. rewrite Hgrow in Hcap. split; [exact Hn |].
  destruct (Z.ltb_spec (n l) (elemsAllocated l)) as [Hfree | Hfull].
  - split; [lia |]. exists j. lia.
  - split; [lia |]. exists (S j).
    replace (6 + Z.of_nat (S j)) with (Z.succ (6 + Z.of_nat j)) by lia.
    rewrite Z.pow_succ_r by lia. lia.
Qed.

Lemma run_assign_cap zs :
  forall (s s' : IdList.t P * list Z) (j : nat),
    Inv (fst s) ->
    run (OpAddAndAssignId <$> zs) s = Ok s' ->
    elemsAllocated (fst s) + 64 = 2 ^ (6 + Z.of_nat j) ->
    elemsAllocated (fst s) < 2 * n (fst s) + 64 ->
    n (fst s') = n (fst s) + Z.of_nat (length zs) /\
    elemsAllocated (fst s') < 2 * n (fst s') + 64 /\
    exists j' : nat, elemsAllocated (fst s') + 64 = 2 ^ (6 + Z.of_nat j').
Proof.
  induction zs as [| z zs IH]; intros s s' j HI Hrun Hpow Hlt.
  - injection Hrun as <-. cbn [length]. split; [lia |]. split; [exact Hlt |].
    exists j. exact Hpow.
  - cbn [fmap list_fmap run] in Hrun.
    pose proof (step_inv (OpAddAndAssignId z) s HI) as HI1.
    destruct (step (OpAddAndAssignId z) s) as [s1 |] eqn:Hstep;
      [cbn [bind] in Hrun | discriminate].
    pose proof HI as (xs & HR & _).
    cbn [step] in Hstep.
    rewrite (AddAndAssignId_unfold z (fst s) xs HR) in Hstep.
    destruct (Add _ (fst s)) as [l1 |] eqn:Hadd; [| discriminate].
    cbn [bind snd] in Hstep. injection Hstep as <-. cbn [fst] in *.
    destruct (Add_cap_pow _ _ _ xs j HR Hadd Hpow Hlt) as (Hn1 & Hlt1 & j1 & Hpow1).
    destruct (IH (l1, snd s ++ [u32 (max_id 0 xs + 1)]) s' j1 HI1 Hrun
                Hpow1 Hlt1) as (Hn' & Hlt' & j' & Hpow').
    cbn [fst length] in *. split; [lia |]. split; [exact Hlt' |].
    exists j'. exact Hpow'.
Qed.

(* a capacity of that form, with n <= 2^30, is an int *)
Lemma cap_pow_int (cap m : Z) (j : nat) :
  cap + 64 = 2 ^ (6 + Z.of_nat j) -> cap < 2 * m + 64 -> m <= 2 ^ 30 ->
  cap < 2 ^ 31.
Proof.
  intros Hpow Hlt Hm.
  destruct (Z.le_gt_cases (6 + Z.of_nat j) 31) as [Hj | Hj].
  - pose proof (Z.pow_le_mono_r 2 (6 + Z.of_nat j) 31 ltac:(lia) Hj). lia.
  - pose proof (Z.pow_le_mono_r 2 32 (6 + Z.of_nat j) ltac:(lia) ltac:(lia)).
    lia.
Qed.

End WithP.
End IdListOpsFacts.

(** ** NameStr::strcpy *)

Module NameStrFacts.
Import NameStr.

Lemma strlen_text (text rest : list Z) :
  Forall (fun c => c <> 0) text ->
  strlen (text ++ 0 :: rest) = Ok (Z.of_nat (length text)).
Proof.
  induction 1 as [| c text Hc _ IH]; [reflexivity |].
  cbn [app strlen length]. destruct (Z.eqb_spec c 0) as [-> | _]; [congruence |].
  rewrite IH. cbn [bind]. f_equal. lia.
Qed.

Lemma memcpy_spec (dst src : list Z) (cnt : nat) :
  (cnt <= length dst)%nat -> (cnt <= length src)%nat ->
  memcpy dst src (Z.of_nat cnt) = Ok (take cnt src ++ drop cnt dst).
Proof.
  intros Hd Hs. unfold memcpy.
  repeat match goal with
         | |- context [?a <=? ?b] => rewrite (proj2 (Z.leb_le a b)) by lia
         end.
  cbn [andb]. rewrite Nat2Z.id. reflexivity.
Qed.

Lemma strcpy_spec (text rest str : list Z) :
  length str = 64%nat -> Forall (fun c => c <> 0) text ->
  exists tail,
    strcpy (text ++ 0 :: rest) str = Ok (take 63 text ++ 0 :: tail) /\
    length (take 63 text ++ 0 :: tail) = 64%nat /\
    forall i : nat,
      (length text < i < 63)%nat ->
      (take 63 text ++ 0 :: tail) !! i = str !! i.
Proof.
  intros Hlen Htext. unfold strcpy, size.
  rewrite (strlen_text text rest Htext). cbn [bind].
  destruct (Nat.lt_ge_cases (length text) 63) as [Hshort | Hlong].
  - replace (Z.min (Z.of_nat (length text) + 1) 64)
      with (Z.of_nat (S (length text))) by lia.
    rewrite memcpy_spec by (rewrite ?length_app; cbn [length]; lia).
    replace (take (S (length text)) (text ++ 0 :: rest)) with (text ++ [0]).
    2:{ rewrite take_app, take_ge by lia.
        replace (S (length text) - length text)%nat with 1%nat by lia.
        reflexivity. }
    cbn [bind].
    rewrite length_app, length_app, length_drop, Hlen. cbn [length].
    destruct (Z.ltb_spec (64 - 1)
                (Z.of_nat (length text + 1 + (64 - S (length text)))));
      [| lia].
    rewrite take_ge by lia.
    exists (<[(62 - length text)%nat := 0]> (drop (S (length text)) str)).
    split; [| split].
    + f_equal. rewrite <- app_assoc. cbn [app].
      replace (Z.to_nat (64 - 1)) with (length text + S (62 - length text))%nat
        by lia.
      rewrite insert_app_r. reflexivity.
    + rewrite length_app. cbn [length]. rewrite length_insert, length_drop. lia.
    + intros i Hi.
      rewrite lookup_app_r by lia.
      replace (i - length text)%nat with (S (i - S (length text))) by lia.
      rewrite lookup_cons. cbv beta iota.
      rewrite list_lookup_insert_ne by lia.
      rewrite lookup_drop. f_equal. lia.
  - replace (Z.min (Z.of_nat (length text) + 1) 64) with (Z.of_nat 64) by lia.
    rewrite memcpy_spec by (rewrite ?length_app; cbn [length]; lia).
    rewrite (drop_ge str 64) by lia. rewrite app_nil_r. cbn [bind].
    assert (Hl : length (take 64 (text ++ 0 :: rest)) = 64%nat)
      by (rewrite length_take, length_app; cbn [length]; lia).
    rewrite Hl.
    destruct (Z.ltb_spec (64 - 1) (Z.of_nat 64)); [| lia].
    change (Z.to_nat (64 - 1)) with 63%nat.
    rewrite insert_take_drop by lia.
    rewrite take_take. change (63 `min` 64)%nat with 63%nat.
    rewrite take_app_le by lia.
    eexists. split; [reflexivity |]. split.
    + rewrite length_app, length_take. cbn [length].
      rewrite length_drop, Hl. lia.
    + intros i Hi. lia.
Qed.

End NameStrFacts.

(** ** RgbaColor: From and Equals *)


Lemma Equals_true (a c : RgbaColor.t) : RgbaColor.Equals a c = true <-> a = c.
Proof.
  unfold RgbaColor.Equals. rewrite !andb_true_iff, !Z.eqb_eq.
  destruct a, c. cbn. split.
  - intros [[[-> ->] ->] ->]. reflexivity.
  - intros [= -> -> -> ->]. auto.
Qed.

(** * Further properties, stated *)

(** ** List<T> *)

(** X1: on a well-formed List, Add returns and puts the element behind
    the others, which stay as they are; the store is reallocated exactly
    when it is full, to (elemsAllocated + 32) * 2 cells. *)
Theorem List_Add_appends {T : Type} (x : T) (l : List.t T) (xs : list T) :
  ListSpec.Rep l xs ->
  exists l',
    List.Add x l = Ok l' /\
    ListSpec.Rep l' (xs ++ [x]) /\
    List.n l' = List.n l + 1 /\
    List.elemsAllocated l'
    = (if List.n l <? List.elemsAllocated l then List.elemsAllocated l
       else (List.elemsAllocated l + 32) * 2).
Proof.
  intros HR.
  destruct (ListOpsFacts.List_Add_spec x l xs HR) as (l' & Hadd & HR' & Hcap).
  exists l'. split; [exact Hadd |]. split; [exact HR' |]. split; [| exact Hcap].
  destruct HR as (-> & _). destruct HR' as (-> & _).
  rewrite length_app. cbn. lia.
Qed.

Lemma List_Add_appends_witness :
  let l := List.mk (live [7; 8] []) 2 2 in
  ListSpec.Rep l [7; 8] /\
  exists l',
    List.Add 9 l = Ok l' /\ ListSpec.Rep l' [7; 8; 9] /\
    List.n l' = 3 /\ List.elemsAllocated l' = 68.
Proof.
  intros l.
  assert (HR : ListSpec.Rep l [7; 8]).
  { unfold ListSpec.Rep. cbn. repeat split. exists []. reflexivity. }
  split; [exact HR |]. exact (List_Add_appends 9 l [7; 8] HR).
Defined.

(** X2: on a well-formed List, AddToBeginning returns and puts the
    element before the others, which keep their order; the store grows
    as for Add. *)
Theorem AddToBeginning_prepends {T : Type} (x : T) (l : List.t T) (xs : list T) :
  ListSpec.Rep l xs ->
  exists l',
    ListOps.AddToBeginning x l = Ok l' /\
    ListSpec.Rep l' (x :: xs) /\
    List.n l' = List.n l + 1 /\
    List.elemsAllocated l'
    = (if List.n l <? List.elemsAllocated l then List.elemsAllocated l
       else (List.elemsAllocated l + 32) * 2).
Proof.
  intros HR.
  destruct (ListOpsFacts.AddToBeginning_spec x l xs HR)
    as (l' & Hadd & HR' & Hcap).
  exists l'. split; [exact Hadd |]. split; [exact HR' |]. split; [| exact Hcap].
  destruct HR as (-> & _). destruct HR' as (-> & _). cbn [length]. lia.
Qed.

Lemma AddToBeginning_prepends_witness :
  let l := List.mk (live [7; 8] [None]) 2 3 in
  ListSpec.Rep l [7; 8] /\
  exists l',
    ListOps.AddToBeginning 6 l = Ok l' /\ ListSpec.Rep l' [6; 7; 8] /\
    List.n l' = 3 /\ List.elemsAllocated l' = 3.
Proof.
  intros l.
  assert (HR : ListSpec.Rep l [7; 8]).
  { unfold ListSpec.Rep. cbn. repeat split. exists [None]. reflexivity. }
  split; [exact HR |]. exact (AddToBeginning_prepends 6 l [7; 8] HR).
Defined.

(** X3: after the calls Add(z) for the elements of [zs] in turn on a
    well-formed List that holds [xs], the loop
    for(t = First(); t; t = NextAfter(t)) visits the elements of [xs] and
    then those of [zs], each once, in this order, and then stops. *)
Theorem walk_after_Adds {T : Type} (l : List.t T) (xs zs : list T) :
  ListSpec.Rep l xs ->
  exists l',
    ListOps.Add_all zs l = Ok l' /\
    List.n l' = Z.of_nat (length (xs ++ zs)) /\
    ListOps.walk (length (xs ++ zs)) l' (ListOps.First l') = Ok (xs ++ zs).
Proof.
  intros HR.
  destruct (ListOpsFacts.Add_all_spec zs l xs HR) as (l' & Hall & HR').
  exists l'. split; [exact Hall |]. split; [apply HR' |].
  apply ListOpsFacts.List_walk_spec; [exact HR' | lia].
Qed.

Lemma walk_after_Adds_witness :
  ListSpec.Rep (List.mk (@nil (option Z)) 0 0) [] /\
  exists l',
    ListOps.Add_all [4; 2; 9] (List.mk [] 0 0) = Ok l' /\
    List.n l' = 3 /\
    ListOps.walk 3 l' (ListOps.First l') = Ok [4; 2; 9].
Proof.
  assert (HR : ListSpec.Rep (List.mk (@nil (option Z)) 0 0) []).
  { unfold ListSpec.Rep. cbn. repeat split. exists []. reflexivity. }
  split; [exact HR |]. exact (walk_after_Adds _ [] [4; 2; 9] HR).
Defined.

(** X4: on a well-formed List, Reverse returns and the list then holds
    the same elements in the opposite order; n and elemsAllocated are
    what they were. *)
Theorem Reverse_reverses {T : Type} (l : List.t T) (xs : list T) :
  ListSpec.Rep l xs ->
  exists l',
    ListOps.Reverse l = Ok l' /\
    ListSpec.Rep l' (reverse xs) /\
    List.n l' = List.n l /\
    List.elemsAllocated l' = List.elemsAllocated l.
Proof.
  intros HR.
  destruct (ListOpsFacts.Reverse_spec l xs HR) as (l' & Hrev & HR' & Hcap).
  exists l'. split; [exact Hrev |]. split; [exact HR' |]. split; [| exact Hcap].
  destruct HR as (-> & _). destruct HR' as (-> & _).
  rewrite length_reverse. reflexivity.
Qed.

Lemma Reverse_reverses_witness :
  let l := List.mk (live [1; 2; 3; 4; 5] [None]) 5 6 in
  ListSpec.Rep l [1; 2; 3; 4; 5] /\
  exists l',
    ListOps.Reverse l = Ok l' /\ ListSpec.Rep l' [5; 4; 3; 2; 1] /\
    List.n l' = 5 /\ List.elemsAllocated l' = 6.
Proof.
  intros l.
  assert (HR : ListSpec.Rep l [1; 2; 3; 4; 5]).
  { unfold ListSpec.Rep. cbn. repeat split. exists [None]. reflexivity. }
  split; [exact HR |]. exact (Reverse_reverses l [1; 2; 3; 4; 5] HR).
Defined.

(** ** IdList<T,H> *)

(** X5: on a well-formed IdList with ascending handles whose handles do
    not include that of [x], Add returns; the list then holds the former
    elements, unchanged and in their order, with [x] between those of
    smaller and those of larger handle, so it is ascending again; n grows
    by one, and the store is reallocated exactly when it is full. *)
Theorem IdList_Add_inserts {P : Type}
    (x : IdList.Item P) (l : IdList.t P) (xs : list (IdList.Item P)) :
  IdListSpec.Rep l xs -> IdListSpec.ascending xs ->
  IdListSpec.hv x ∉ (IdListSpec.hv <$> xs) ->
  exists l' ys zs,
    IdList.Add x l = Ok l' /\
    xs = ys ++ zs /\
    IdListSpec.Rep l' (ys ++ x :: zs) /\
    IdListSpec.ascending (ys ++ x :: zs) /\
    IdList.n l' = IdList.n l + 1 /\
    IdList.elemsAllocated l'
    = (if IdList.n l <? IdList.elemsAllocated l then IdList.elemsAllocated l
       else (IdList.elemsAllocated l + 32) * 2).
Proof.
  intros HR Hasc Hout.
  destruct (proj2 (IdListFacts.Add_spec x l xs HR Hasc) Hout)
    as (l' & ys & zs & Hadd & Hxs & HR' & Hlt & Hgt).
  exists l', ys, zs. split; [exact Hadd |]. split; [exact Hxs |].
  split; [exact HR' |]. split.
  { apply IdListFacts.ascending_insert;
      [rewrite <- Hxs; exact Hasc | exact Hlt | exact Hgt]. }
  destruct (IdListOpsFacts.Add_capacity x l l' Hadd) as [Hcap Hn].
  assert (Hc : 0 <= IdList.elemsAllocated l)
    by (destruct HR as (_ & -> & _); lia).
  destruct (IdListOpsFacts.grown_capacity l Hc) as (_ & Hn' & Hgrow).
  split; [lia | congruence].
Qed.

Lemma IdList_Add_inserts_witness :
  let xs := [Samples.item 3 0; Samples.item 5 0] in
  let l := IdList.mk (live xs []) 2 2 in
  let x := Samples.item 4 1 in
  IdListSpec.Rep l xs /\ IdListSpec.ascending xs /\
  (IdListSpec.hv x ∉ (IdListSpec.hv <$> xs)) /\
  exists l' ys zs,
    IdList.Add x l = Ok l' /\ xs = ys ++ zs /\
    IdListSpec.Rep l' (ys ++ x :: zs) /\
    IdListSpec.ascending (ys ++ x :: zs) /\
    IdList.n l' = 2 + 1 /\ IdList.elemsAllocated l' = 68.
Proof.
  intros xs l x.
  assert (HR : IdListSpec.Rep l xs).
  { unfold IdListSpec.Rep. cbn. repeat split. exists []. reflexivity. }
  assert (Hasc : IdListSpec.ascending xs).
  { unfold IdListSpec.ascending. repeat constructor. }
  assert (Hout : IdListSpec.hv x ∉ (IdListSpec.hv <$> xs)).
  { cbn. intros Hin. repeat (apply elem_of_cons in Hin as [Hin | Hin];
                             [discriminate Hin |]).
    inversion Hin. }
  split; [exact HR |]. split; [exact Hasc |]. split; [exact Hout |].
  exact (IdList_Add_inserts x l xs HR Hasc Hout).
Defined.

(** X6: on a well-formed IdList with ascending handles, FindByIdNoOops
    returns a pointer to [y] exactly when [y] is an element of the list
    with the handle asked for, and NULL exactly when no element has it;
    FindById is fatal exactly in the second case. *)
Theorem FindByIdNoOops_finds_exactly {P : Type}
    (hd : IdList.Handle) (l : IdList.t P) (xs : list (IdList.Item P)) :
  IdListSpec.Rep l xs -> IdListSpec.ascending xs ->
  (forall y,
      (exists i, IdList.FindByIdNoOops hd l = Ok (Some i) /\
                 rd (IdList.elem l) i = Ok y)
      <-> (y ∈ xs /\ IdListSpec.hv y = IdList.v hd)) /\
  (IdList.FindByIdNoOops hd l = Ok None
   <-> IdList.v hd ∉ (IdListSpec.hv <$> xs)) /\
  (IdList.FindById hd l = Err Oops
   <-> IdList.v hd ∉ (IdListSpec.hv <$> xs)).
Proof.
  intros HR Hasc.
  pose proof (IdListOpsFacts.not_found_iff hd l xs HR Hasc) as Hnone.
  split; [intros y; apply IdListOpsFacts.found_iff; assumption |].
  split; [exact Hnone |].
  unfold IdList.FindById.
  pose proof (IdListFacts.FindByIdNoOops_spec hd l xs HR Hasc) as Hs.
  destruct (IdList.FindByIdNoOops hd l) as [[i |] | e]; cbn [bind].
  - split; [discriminate |]. intros Habs. apply Hnone in Habs. discriminate.
  - split; [intros _; apply Hnone; reflexivity | reflexivity].
  - contradiction.
Qed.

Lemma FindByIdNoOops_finds_exactly_witness :
  let xs := [Samples.item 3 0; Samples.item 5 0; Samples.item 8 0] in
  let l := IdList.mk (live xs [None]) 3 4 in
  IdListSpec.Rep l xs /\ IdListSpec.ascending xs /\
  (exists i, IdList.FindByIdNoOops (IdList.mkH 5) l = Ok (Some i) /\
             rd (IdList.elem l) i = Ok (Samples.item 5 0)) /\
  IdList.FindByIdNoOops (IdList.mkH 4) l = Ok None.
Proof.
  intros xs l.
  assert (HR : IdListSpec.Rep l xs).
  { unfold IdListSpec.Rep. cbn. repeat split. exists [None]. reflexivity. }
  assert (Hasc : IdListSpec.ascending xs).
  { unfold IdListSpec.ascending. repeat constructor. }
  split; [exact HR |]. split; [exact Hasc |]. split.
  - apply (proj1 (FindByIdNoOops_finds_exactly (IdList.mkH 5) l xs HR Hasc)).
    split; [right; left | reflexivity].
  - apply (proj1 (proj2
             (FindByIdNoOops_finds_exactly (IdList.mkH 4) l xs HR Hasc))).
    cbn. intros Hin. repeat (apply elem_of_cons in Hin as [Hin | Hin];
                             [discriminate Hin |]).
    inversion Hin.
Defined.

(** X7: on a well-formed IdList with ascending handles that holds an
    element [x] with the handle asked for, RemoveById returns; the list
    then holds the other elements in their order, every tag set to 0;
    n is one less, elemsAllocated is what it was, and FindByIdNoOops of
    that handle now returns NULL. *)
Theorem RemoveById_removes_one {P : Type}
    (hd : IdList.Handle) (l : IdList.t P)
    (ys : list (IdList.Item P)) (x : IdList.Item P) (zs : list (IdList.Item P)) :
  IdListSpec.Rep l (ys ++ x :: zs) -> IdListSpec.ascending (ys ++ x :: zs) ->
  IdListSpec.hv x = IdList.v hd ->
  exists l',
    IdList.RemoveById hd l = Ok l' /\
    IdListSpec.Rep l' ((fun y => IdList.set_tag y 0) <$> (ys ++ zs)) /\
    IdList.n l' = IdList.n l - 1 /\
    IdList.elemsAllocated l' = IdList.elemsAllocated l /\
    IdList.FindByIdNoOops hd l' = Ok None.
Proof.
  intros HR Hasc Hx.
  destruct (proj2 (IdListFacts.RemoveById_spec hd l _ HR Hasc) ys x zs
              eq_refl Hx) as (l' & Hrm & HR' & Hcap).
  exists l'. split; [exact Hrm |]. split; [exact HR' |].
  split; [| split; [exact Hcap |]].
  - destruct HR as (-> & _). destruct HR' as (-> & _).
    rewrite length_fmap, !length_app. cbn [length]. lia.
  - apply (IdListFacts.FindByIdNoOops_absent hd l' _ HR').
    rewrite <- list_fmap_compose, <- Hx.
    apply (IdListOpsFacts.absent_elsewhere ys x zs Hasc).
Qed.

Lemma RemoveById_removes_one_witness :
  let ys := [Samples.item 3 4] in
  let x := Samples.item 5 0 in
  let zs := [Samples.item 8 9] in
  let l := IdList.mk (live (ys ++ x :: zs) [None]) 3 4 in
  IdListSpec.Rep l (ys ++ x :: zs) /\ IdListSpec.ascending (ys ++ x :: zs) /\
  exists l',
    IdList.RemoveById (IdList.mkH 5) l = Ok l' /\
    IdListSpec.Rep l' [Samples.item 3 0; Samples.item 8 0] /\
    IdList.n l' = 3 - 1 /\ IdList.elemsAllocated l' = 4 /\
    IdList.FindByIdNoOops (IdList.mkH 5) l' = Ok None.
Proof.
  intros ys x zs l.
  assert (HR : IdListSpec.Rep l (ys ++ x :: zs)).
  { unfold IdListSpec.Rep. cbn. repeat split. exists [None]. reflexivity. }
  assert (Hasc : IdListSpec.ascending (ys ++ x :: zs)).
  { unfold IdListSpec.ascending. repeat constructor. }
  split; [exact HR |]. split; [exact Hasc |].
  exact (RemoveById_removes_one (IdList.mkH 5) l ys x zs HR Hasc eq_refl).
Defined.

(** X8: Add of an element whose handle is new, followed by RemoveById of
    that handle, returns and leaves the elements that were there before,
    in their order, every tag set to 0. *)
Theorem Add_then_RemoveById {P : Type}
    (x : IdList.Item P) (l : IdList.t P) (xs : list (IdList.Item P)) :
  IdListSpec.Rep l xs -> IdListSpec.ascending xs ->
  IdListSpec.hv x ∉ (IdListSpec.hv <$> xs) ->
  exists l1 l2,
    IdList.Add x l = Ok l1 /\
    IdList.RemoveById (IdList.h x) l1 = Ok l2 /\
    IdListSpec.Rep l2 ((fun y => IdList.set_tag y 0) <$> xs) /\
    IdList.n l2 = IdList.n l /\
    IdList.elemsAllocated l2 = IdList.elemsAllocated l1.
Proof.
  intros HR Hasc Hout.
  destruct (proj2 (IdListFacts.Add_spec x l xs HR Hasc) Hout)
    as (l1 & ys & zs & Hadd & Hxs & HR1 & Hlt & Hgt).
  assert (Hasc1 : IdListSpec.ascending (ys ++ x :: zs)).
  { apply IdListFacts.ascending_insert;
      [rewrite <- Hxs; exact Hasc | exact Hlt | exact Hgt]. }
  destruct (proj2 (IdListFacts.RemoveById_spec (IdList.h x) l1 _ HR1 Hasc1)
              ys x zs eq_refl eq_refl) as (l2 & Hrm & HR2 & Hcap).
  exists l1, l2. split; [exact Hadd |]. split; [exact Hrm |].
  rewrite <- Hxs in HR2. split; [exact HR2 |]. split; [| exact Hcap].
  destruct HR as (-> & _). destruct HR2 as (-> & _).
  rewrite length_fmap. reflexivity.
Qed.

Lemma Add_then_RemoveById_witness :
  let xs := [Samples.item 3 2; Samples.item 5 0] in
  let l := IdList.mk (live xs [None]) 2 3 in
  let x := Samples.item 4 1 in
  IdListSpec.Rep l xs /\ IdListSpec.ascending xs /\
  (IdListSpec.hv x ∉ (IdListSpec.hv <$> xs)) /\
  exists l1 l2,
    IdList.Add x l = Ok l1 /\
    IdList.RemoveById (IdList.mkH 4) l1 = Ok l2 /\
    IdListSpec.Rep l2 [Samples.item 3 0; Samples.item 5 0] /\
    IdList.n l2 = 2 /\
    IdList.elemsAllocated l2 = IdList.elemsAllocated l1.
Proof.
  intros xs l x.
  assert (HR : IdListSpec.Rep l xs).
  { unfold IdListSpec.Rep. cbn. repeat split. exists [None]. reflexivity. }
  assert (Hasc : IdListSpec.ascending xs).
  { unfold IdListSpec.ascending. repeat constructor. }
  assert (Hout : IdListSpec.hv x ∉ (IdListSpec.hv <$> xs)).
  { cbn. intros Hin. repeat (apply elem_of_cons in Hin as [Hin | Hin];
                             [discriminate Hin |]).
    inversion Hin. }
  split; [exact HR |]. split; [exact Hasc |]. split; [exact Hout |].
  exact (Add_then_RemoveById x l xs HR Hasc Hout).
Defined.

(** X9: Add does not disturb the lookup of any other handle.  On a
    well-formed IdList with ascending handles, when Add of [x] returns,
    FindByIdNoOops of a handle other than that of [x] points to the same
    element value after the call as before, and is NULL after the call
    exactly when it was NULL before. *)
Theorem Add_keeps_other_lookups {P : Type}
    (x : IdList.Item P) (hd : IdList.Handle)
    (l l' : IdList.t P) (xs : list (IdList.Item P)) :
  IdListSpec.Rep l xs -> IdListSpec.ascending xs ->
  IdList.v hd <> IdListSpec.hv x ->
  IdList.Add x l = Ok l' ->
  (forall y,
      (exists i, IdList.FindByIdNoOops hd l = Ok (Some i) /\
                 rd (IdList.elem l) i = Ok y)
      <-> (exists i', IdList.FindByIdNoOops hd l' = Ok (Some i') /\
                      rd (IdList.elem l') i' = Ok y)) /\
  (IdList.FindByIdNoOops hd l = Ok None
   <-> IdList.FindByIdNoOops hd l' = Ok None).
Proof.
  intros HR Hasc Hne Hadd.
  destruct (IdListFacts.Add_spec x l xs HR Hasc) as [Hdup Hnew].
  destruct (decide (IdListSpec.hv x ∈ (IdListSpec.hv <$> xs))) as [Hin | Hout];
    [rewrite (Hdup Hin) in Hadd; discriminate |].
  destruct (Hnew Hout) as (l1 & ys & zs & Hadd1 & Hxs & HR1 & Hlt & Hgt).
  assert (l1 = l') as -> by congruence.
  assert (Hasc1 : IdListSpec.ascending (ys ++ x :: zs)).
  { apply IdListFacts.ascending_insert;
      [rewrite <- Hxs; exact Hasc | exact Hlt | exact Hgt]. }
  split.
  - intros y.
    rewrite (IdListOpsFacts.found_iff hd l xs y HR Hasc).
    rewrite (IdListOpsFacts.found_iff hd l' _ y HR1 Hasc1).
    rewrite Hxs, !elem_of_app, elem_of_cons.
    split; [tauto |].
    intros [[Hy | [-> | Hy]] Hk]; [tauto | congruence | tauto].
  - rewrite (IdListOpsFacts.not_found_iff hd l xs HR Hasc).
    rewrite (IdListOpsFacts.not_found_iff hd l' _ HR1 Hasc1).
    rewrite Hxs, !fmap_app, fmap_cons, !elem_of_app, elem_of_cons. tauto.
Qed.

Lemma Add_keeps_other_lookups_witness :
  let xs := [Samples.item 3 2; Samples.item 5 0] in
  let l := IdList.mk (live xs [None]) 2 3 in
  let x := Samples.item 4 1 in
  IdListSpec.Rep l xs /\ IdListSpec.ascending xs /\
  exists l',
    IdList.Add x l = Ok l' /\
    exists i', IdList.FindByIdNoOops (IdList.mkH 5) l' = Ok (Some i') /\
               rd (IdList.elem l') i' = Ok (Samples.item 5 0).
Proof.
  intros xs l x.
  assert (HR : IdListSpec.Rep l xs).
  { unfold IdListSpec.Rep. cbn. repeat split. exists [None]. reflexivity. }
  assert (Hasc : IdListSpec.ascending xs).
  { unfold IdListSpec.ascending. repeat constructor. }
  split; [exact HR |]. split; [exact Hasc |].
  eexists. split; [vm_compute; reflexivity |].
  match goal with
  | |- exists i', IdList.FindByIdNoOops _ ?l' = _ /\ _ =>
      apply (proj1 (proj1 (Add_keeps_other_lookups x (IdList.mkH 5) l l' xs
                             HR Hasc ltac:(discriminate) eq_refl) _))
  end.
  exists 1. split; reflexivity.
Defined.

(** X10: in a sequence of Add and AddAndAssignId calls without RemoveById
    on an empty IdList, AddAndAssignId never assigns a handle value
    twice: when the sequence returns, the handle values it assigned are
    pairwise different.  (A sequence that does not return ended in
    oops().) *)
Theorem no_removal_no_reuse {P : Type} (os : list (IdList.op P)) :
  Forall (fun o => IdListOps.removes o = false) os ->
  match IdList.run os (IdList.empty, []) with
  | Ok s => NoDup (snd s)
  | Err e => e = Oops
  end.
Proof.
  intros Hos.
  apply (IdListOpsFacts.run_no_removal os IdList.empty [] []);
    [apply IdListFacts.Rep_empty | constructor | constructor | | exact Hos].
  intros k Hk. inversion Hk.
Qed.

Lemma no_removal_no_reuse_witness :
  let os := [IdList.OpAddAndAssignId (Samples.item 0 0);
             IdList.OpAdd (Samples.item 7 0);
             IdList.OpAddAndAssignId (Samples.item 0 0)] in
  Forall (fun o => IdListOps.removes o = false) os /\
  exists l, IdList.run os (IdList.empty, []) = Ok (l, [1; 8]) /\
            NoDup ([1; 8] : list Z).
Proof.
  intros os.
  assert (Hos : Forall (fun o => IdListOps.removes o = false) os)
    by (repeat constructor).
  split; [exact Hos |].
  pose proof (no_removal_no_reuse os Hos) as Hnd.
  eexists. split; [vm_compute; reflexivity | exact Hnd].
Defined.

(** X11: AddAndAssignId called k times in a row on an empty IdList,
    k <= 2^30, returns every time and assigns the handles 1, 2, ..., k in
    this order; the elements are stored in the order of the calls, each
    under its handle; n is then k and elemsAllocated is below 2^31.  (For
    these k the counters, the capacity (elemsAllocated + 32) * 2 and the
    sums first + last of the search, at most 2 * n, are ints.) *)
Theorem AddAndAssignId_counts_from_one {P : Type} (zs : list (IdList.Item P)) :
  Z.of_nat (length zs) <= 2 ^ 30 ->
  exists l,
    IdList.run (IdList.OpAddAndAssignId <$> zs) (IdList.empty, [])
    = Ok (l, Z.of_nat <$> seq 1 (length zs)) /\
    IdListSpec.Rep l
      (zip_with IdList.set_h_v zs (Z.of_nat <$> seq 1 (length zs))) /\
    IdList.n l = Z.of_nat (length zs) /\
    0 <= IdList.elemsAllocated l < 2 ^ 31.
Proof.
  intros Hk.
  destruct (IdListOpsFacts.run_assign_seq zs IdList.empty [] [] 0
              IdListFacts.Rep_empty ltac:(constructor) eq_refl ltac:(cbn; lia))
    as (l & Hrun & HR).
  exists l. split; [exact Hrun |]. split; [exact HR |].
  destruct (IdListOpsFacts.run_assign_cap zs (IdList.empty, []) _ 0%nat
              IdListFacts.Inv_empty Hrun eq_refl ltac:(cbn; lia))
    as (Hn & Hlt & j & Hpow).
  cbn [fst IdList.n IdList.empty] in Hn, Hlt, Hpow.
  split; [lia |]. split.
  - destruct HR as (_ & -> & _). lia.
  - apply (IdListOpsFacts.cap_pow_int _ (IdList.n l) j Hpow Hlt). lia.
Qed.

Lemma AddAndAssignId_counts_from_one_witness :
  let zs := [Samples.item 0 5; Samples.item 9 0; Samples.item 0 0] in
  Z.of_nat (length zs) <= 2 ^ 30 /\
  exists l,
    IdList.run (IdList.OpAddAndAssignId <$> zs) (IdList.empty, [])
    = Ok (l, [1; 2; 3]) /\
    IdListSpec.Rep l [Samples.item 1 5; Samples.item 2 0; Samples.item 3 0] /\
    IdList.n l = 3 /\
    0 <= IdList.elemsAllocated l < 2 ^ 31.
Proof.
  intros zs.
  assert (Hk : Z.of_nat (length zs) <= 2 ^ 30) by (cbn; lia).
  split; [exact Hk |]. exact (AddAndAssignId_counts_from_one zs Hk).
Defined.

(** X12: on a well-formed IdList with ascending handles, RemoveById of a
    handle that an element has is the same as ClearTags, then Tag of the
    handle with 1, then RemoveTagged.  For a handle that no element has
    the three calls return and keep every element (tags set to 0), where
    RemoveById is fatal. *)
Theorem RemoveById_is_Tag_and_sweep {P : Type}
    (hd : IdList.Handle) (l : IdList.t P) (xs : list (IdList.Item P)) :
  IdListSpec.Rep l xs -> IdListSpec.ascending xs ->
  (IdList.v hd ∈ (IdListSpec.hv <$> xs) ->
   IdList.RemoveById hd l
   = (do l1 <- IdList.ClearTags l;
      do l2 <- IdList.Tag hd 1 l1;
      IdList.RemoveTagged l2)) /\
  (IdList.v hd ∉ (IdListSpec.hv <$> xs) ->
   IdList.RemoveById hd l = Err Oops /\
   exists l',
     (do l1 <- IdList.ClearTags l;
      do l2 <- IdList.Tag hd 1 l1;
      IdList.RemoveTagged l2) = Ok l' /\
     IdListSpec.Rep l' ((fun y => IdList.set_tag y 0) <$> xs)).
Proof.
  intros HR Hasc. split.
  - apply IdListOpsFacts.RemoveById_as_Tag; assumption.
  - intros Habs. split; [apply (IdListFacts.RemoveById_absent hd l xs HR Habs) |].
    destruct (IdListFacts.ClearTags_spec l xs HR) as (l1 & Hclr & HR1 & _).
    rewrite Hclr. cbn [bind].
    destruct (IdListFacts.Tag_spec hd 1 l1 _ HR1)
      as (l2 & Htag & _ & _ & _ & _ & Hsame).
    rewrite Htag, Hsame by (rewrite <- list_fmap_compose; exact Habs).
    cbn [bind].
    destruct (IdListFacts.IdList_RemoveTagged_spec l1 _ HR1)
      as (l' & Hrm & HR' & _).
    exists l'. split; [exact Hrm |].
    rewrite IdListFacts.filter_all in HR'
      by (apply Forall_fmap, Forall_forall; intros; reflexivity).
    exact HR'.
Qed.

Lemma RemoveById_is_Tag_and_sweep_witness :
  let xs := [Samples.item 3 2; Samples.item 5 7] in
  let l := IdList.mk (live xs [None]) 2 3 in
  IdListSpec.Rep l xs /\ IdListSpec.ascending xs /\
  (5 ∈ (IdListSpec.hv <$> xs)) /\
  IdList.RemoveById (IdList.mkH 5) l
  = (do l1 <- IdList.ClearTags l;
     do l2 <- IdList.Tag (IdList.mkH 5) 1 l1;
     IdList.RemoveTagged l2).
Proof.
  intros xs l.
  assert (HR : IdListSpec.Rep l xs).
  { unfold IdListSpec.Rep. cbn. repeat split. exists [None]. reflexivity. }
  assert (Hasc : IdListSpec.ascending xs).
  { unfold IdListSpec.ascending. repeat constructor. }
  assert (Hin : 5 ∈ (IdListSpec.hv <$> xs)) by (cbn; right; left).
  split; [exact HR |]. split; [exact Hasc |]. split; [exact Hin |].
  exact (proj1 (RemoveById_is_Tag_and_sweep (IdList.mkH 5) l xs HR Hasc) Hin).
Defined.

(** X13: after any sequence of Add, AddAndAssignId and RemoveById calls
    on an empty IdList that returns, the loop
    for(t = First(); t; t = NextAfter(t)) visits n elements, each element
    of the container once, in strictly ascending order of handle, and
    then stops. *)
Theorem IdList_walk_ascending {P : Type}
    (os : list (IdList.op P)) (l : IdList.t P) (tr : list Z) :
  IdList.run os (IdList.empty, []) = Ok (l, tr) ->
  exists xs,
    IdListSpec.Rep l xs /\
    IdListOps.walk (Z.to_nat (IdList.n l)) l (IdListOps.First l) = Ok xs /\
    Z.of_nat (length xs) = IdList.n l /\
    IdListSpec.ascending xs.
Proof.
  intros Hrun.
  pose proof (IdListFacts.run_inv os (IdList.empty, [])
                IdListFacts.Inv_empty) as HI.
  rewrite Hrun in HI. cbn [fst] in HI. destruct HI as (xs & HR & Hasc).
  exists xs. split; [exact HR |].
  pose proof HR as (Hn & _).
  split; [apply IdListOpsFacts.IdList_walk_spec; [exact HR | lia] |].
  split; [lia | exact Hasc].
Qed.

Lemma IdList_walk_ascending_witness :
  let os := [IdList.OpAdd (Samples.item 5 0); IdList.OpAdd (Samples.item 3 7);
             IdList.OpAdd (Samples.item 9 0)] in
  exists l tr,
    IdList.run os (IdList.empty, []) = Ok (l, tr) /\
    exists xs,
      IdListSpec.Rep l xs /\
      IdListOps.walk (Z.to_nat (IdList.n l)) l (IdListOps.First l) = Ok xs /\
      Z.of_nat (length xs) = IdList.n l /\
      IdListSpec.ascending xs.
Proof.
  intros os. eexists _, _. split; [vm_compute; reflexivity |].
  apply (IdList_walk_ascending os _ []). vm_compute. reflexivity.
Defined.

(** X14: on a well-formed IdList, ClearTags returns and sets the tag of
    every element to 0, leaving handles, other fields, order, n and
    elemsAllocated as they were; RemoveTagged right after it returns and
    removes nothing. *)
Theorem ClearTags_then_RemoveTagged {P : Type}
    (l : IdList.t P) (xs : list (IdList.Item P)) :
  IdListSpec.Rep l xs ->
  exists l1 l2,
    IdList.ClearTags l = Ok l1 /\
    IdListSpec.Rep l1 ((fun y => IdList.set_tag y 0) <$> xs) /\
    IdList.n l1 = IdList.n l /\
    IdList.elemsAllocated l1 = IdList.elemsAllocated l /\
    IdList.RemoveTagged l1 = Ok l2 /\
    IdListSpec.Rep l2 ((fun y => IdList.set_tag y 0) <$> xs) /\
    IdList.n l2 = IdList.n l.
Proof.
  intros HR.
  destruct (IdListFacts.ClearTags_spec l xs HR) as (l1 & Hclr & HR1 & Hcap1).
  destruct (IdListFacts.IdList_RemoveTagged_spec l1 _ HR1)
    as (l2 & Hrm & HR2 & _).
  rewrite IdListFacts.filter_all in HR2
    by (apply Forall_fmap, Forall_forall; intros; reflexivity).
  exists l1, l2.
  assert (Hn1 : IdList.n l1 = IdList.n l).
  { destruct HR as (-> & _). destruct HR1 as (-> & _).
    rewrite length_fmap. reflexivity. }
  assert (Hn2 : IdList.n l2 = IdList.n l).
  { destruct HR as (-> & _). destruct HR2 as (-> & _).
    rewrite length_fmap. reflexivity. }
  auto 10.
Qed.

Lemma ClearTags_then_RemoveTagged_witness :
  let xs := [Samples.item 3 2; Samples.item 5 7] in
  let l := IdList.mk (live xs [None]) 2 3 in
  IdListSpec.Rep l xs /\
  exists l1 l2,
    IdList.ClearTags l = Ok l1 /\
    IdListSpec.Rep l1 [Samples.item 3 0; Samples.item 5 0] /\
    IdList.n l1 = 2 /\ IdList.elemsAllocated l1 = 3 /\
    IdList.RemoveTagged l1 = Ok l2 /\
    IdListSpec.Rep l2 [Samples.item 3 0; Samples.item 5 0] /\
    IdList.n l2 = 2.
Proof.
  intros xs l.
  assert (HR : IdListSpec.Rep l xs).
  { unfold IdListSpec.Rep. cbn. repeat split. exists [None]. reflexivity. }
  split; [exact HR |]. exact (ClearTags_then_RemoveTagged l xs HR).
Defined.

(** X15: no call makes the store smaller.  From a well-formed IdList with
    ascending handles, after any sequence of Add, AddAndAssignId and
    RemoveById calls that returns, elemsAllocated is at least what it
    was, and 0 <= n <= elemsAllocated. *)
Theorem capacity_never_shrinks {P : Type}
    (l0 : IdList.t P) (tr0 : list Z) (os : list (IdList.op P))
    (l : IdList.t P) (tr : list Z) :
  IdListSpec.Inv l0 ->
  IdList.run os (l0, tr0) = Ok (l, tr) ->
  IdList.elemsAllocated l0 <= IdList.elemsAllocated l /\
  0 <= IdList.n l <= IdList.elemsAllocated l.
Proof.
  intros HI0 Hrun. split.
  - apply (IdListOpsFacts.run_capacity os (l0, tr0) (l, tr) HI0 Hrun).
  - pose proof (IdListFacts.run_inv os (l0, tr0) HI0) as HI.
    rewrite Hrun in HI. destruct HI as (xs & (Hn & Hcap & junk & Hb) & _).
    cbn [fst] in *. rewrite Hn, Hcap, Hb, live_length. lia.
Qed.

Lemma capacity_never_shrinks_witness :
  let os := [IdList.OpAdd (Samples.item 5 0); IdList.OpAdd (Samples.item 3 7);
             IdList.OpRemoveById (IdList.mkH 5);
             IdList.OpRemoveById (IdList.mkH 3)] in
  IdListSpec.Inv (@IdList.empty unit) /\
  exists l tr,
    IdList.run os (IdList.empty, []) = Ok (l, tr) /\
    0 <= IdList.elemsAllocated l /\
    0 <= IdList.n l <= IdList.elemsAllocated l.
Proof.
  intros os. split; [apply IdListFacts.Inv_empty |].
  eexists _, _. split; [vm_compute; reflexivity |].
  apply (capacity_never_shrinks IdList.empty [] os _ [] IdListFacts.Inv_empty).
  vm_compute. reflexivity.
Defined.

(** ** NameStr and RgbaColor *)

(** X16: NameStr::strcpy of a C string (bytes other than 0, then a 0 byte)
    into the 64-byte array returns and never writes outside of the
    array; the array then starts with the first 63 bytes of the string
    (all of it when it is shorter) followed by a 0 byte, so the stored
    string has length min(strlen(in), 63); the bytes between that 0 and
    the last byte of the array are not touched. *)
Theorem strcpy_truncates (text rest str : list Z) :
  length str = 64%nat -> Forall (fun c => c <> 0) text ->
  exists str',
    NameStr.strcpy (text ++ 0 :: rest) str = Ok str' /\
    length str' = 64%nat /\
    NameStr.strlen str' = Ok (Z.min (Z.of_nat (length text)) 63) /\
    take 63 text `prefix_of` str' /\
    forall i : nat, (length text < i < 63)%nat -> str' !! i = str !! i.
Proof.
  intros Hlen Htext.
  destruct (NameStrFacts.strcpy_spec text rest str Hlen Htext)
    as (tail & Hrun & Hl & Hkeep).
  exists (take 63 text ++ 0 :: tail).
  split; [exact Hrun |]. split; [exact Hl |].
  split; [| split; [eexists; reflexivity | exact Hkeep]].
  rewrite NameStrFacts.strlen_text by (apply Forall_take, Htext).
  rewrite length_take. f_equal. lia.
Qed.

Lemma strcpy_truncates_witness :
  let text := replicate 70 65 in
  let str := replicate 64 7 in
  length str = 64%nat /\ Forall (fun c => c <> 0) text /\
  exists str',
    NameStr.strcpy (text ++ [0]) str = Ok str' /\
    length str' = 64%nat /\
    NameStr.strlen str' = Ok 63.
Proof.
  intros text str.
  assert (Hlen : length str = 64%nat) by reflexivity.
  assert (Htext : Forall (fun c => c <> 0) text)
    by (apply Forall_replicate; discriminate).
  split; [exact Hlen |]. split; [exact Htext |].
  destruct (strcpy_truncates text [] str Hlen Htext)
    as (str' & Hrun & Hl & Hstrlen & _).
  exists str'. split; [exact Hrun |]. split; [exact Hl | exact Hstrlen].
Defined.

(** X17: two colours whose fields are bytes pack to the same 32-bit word
    exactly when Equals holds of them. *)
Theorem ToPackedInt_eq_iff_Equals (a c : RgbaColor.t) :
  RgbaColor.wf a -> RgbaColor.wf c ->
  RgbaColor.ToPackedInt a = RgbaColor.ToPackedInt c
  <-> RgbaColor.Equals a c = true.
Proof.
  intros Ha Hc. rewrite Equals_true, !ToPackedInt_sum by assumption.
  destruct a as [r g b al], c as [r' g' b' al'].
  destruct Ha as (? & ? & ? & ?), Hc as (? & ? & ? & ?).
  unfold is_u8 in *. cbn in *. split.
  - intros Heq.
    assert (r = r') by lia. assert (g = g') by lia.
    assert (b = b') by lia. assert (al = al') by lia. congruence.
  - intros [= -> -> -> ->]. reflexivity.
Qed.

Lemma ToPackedInt_eq_iff_Equals_witness :
  RgbaColor.wf (RgbaColor.mk 1 2 3 4) /\
  RgbaColor.wf (RgbaColor.mk 1 2 3 5) /\
  RgbaColor.ToPackedInt (RgbaColor.mk 1 2 3 4)
  <> RgbaColor.ToPackedInt (RgbaColor.mk 1 2 3 5).
Proof.
  assert (Ha : RgbaColor.wf (RgbaColor.mk 1 2 3 4))
    by (unfold RgbaColor.wf, is_u8; cbn; lia).
  assert (Hc : RgbaColor.wf (RgbaColor.mk 1 2 3 5))
    by (unfold RgbaColor.wf, is_u8; cbn; lia).
  split; [exact Ha |]. split; [exact Hc |].
  intros Heq. apply (ToPackedInt_eq_iff_Equals _ _ Ha Hc) in Heq.
  discriminate Heq.
Defined.

